(** * bff_huffman_decompress: the pack(1)-style Huffman decoder

    A shallow embedding of [src/bff/bff_huffman_decompress.c] and the
    properties of its tree builder ([unpack_parse_header],
    [unpackd_fill_inodesin]) and of its bit decoder ([unpack_decode]).

    Conventions of the embedding.
    - C [int] and [off_t] values are integers of [Z].  On a container
      whose header byte is not 0 every [int] the program computes stays
      below 2^18 (lemmas [thiscode_bound] and [parsed_sum_bound]), so no
      wrap-around is written out.
    - Streams ([FILE *]) are lists of bytes: [fpIn] holds what is still to
      be read, [fpOut] what has been written, in order.
    - A heap array is a list; a pointer into the symbol table is its offset
      from [symbol].  An access outside the allocated object has no defined
      behaviour in C: the model returns [None] there, and only there.
    - [maybe_err] and [maybe_errx] have EMPTY bodies in this source: control
      returns to the caller and nothing is changed.  The model keeps the
      message of each call in the ghost field [diag], which no definition
      ever reads, so that theorems can tell which checks fired. *)

From Stdlib Require Import ZArith Lia Strings.Byte.
From stdpp Require Import base option list strings.

Local Open Scope Z_scope.

(** ** C scalars, bytes and streams *)

Definition PACK_HEADER_LENGTH : Z := 1.
Definition HTREE_MAXLEVEL : Z := 24.
Definition EOF : Z := -1.

Definition byte_val (b : byte) : Z := Z.of_N (Byte.to_N b).

(** [(unsigned char)c] for an [int] c. *)
Definition to_uchar (c : Z) : Z := c mod 256.

(** [(char)c] as the byte that ends up in memory. *)
Definition to_char (c : Z) : byte :=
  default Byte.x00 (Byte.of_N (Z.to_N (c mod 256))).

(** [fgetc]: the next byte as a non-negative [int], or [EOF]. *)
Definition fgetc (fp : list byte) : Z * list byte :=
  match fp with
  | [] => (EOF, [])
  | b :: fp' => (byte_val b, fp')
  end.

(** [a[i]] as an rvalue and [a[i] = v]; [None] outside the object. *)
Definition aget {A} (a : list A) (i : Z) : option A :=
  if decide (0 <= i) then a !! Z.to_nat i else None.

Definition aset {A} (a : list A) (i : Z) (v : A) : option (list A) :=
  if decide (0 <= i < Z.of_nat (length a))
  then Some (<[Z.to_nat i := v]> a) else None.

(** [calloc(n, _)]: n zeroed cells.  Allocation is taken to succeed, as
    [fdopen] is; for n = 0 there is no cell, whether the C library returns
    NULL or an empty object. *)
Definition calloc {A} (n : Z) (zero : A) : list A := replicate (Z.to_nat n) zero.

(** ** The unpack descriptor *)

Record unpack_descriptor := mk_unpackd {
  symbol_size : Z;            (* Size of the symbol table *)
  treelevels : Z;             (* Levels for the huffman tree *)
  symbolsin : list Z;         (* leaf symbols count in each level *)
  inodesin : list Z;          (* internal nodes count in each level *)
  symbol : list byte;         (* The symbol table *)
  symbol_eob : Z;             (* pointer to the EOB symbol, as an offset *)
  tree : list Z;              (* first symbol of each level, as offsets *)
  uncompressed_size : Z;
  fpIn : list byte;
  fpOut : list byte;
  diag : list string          (* ghost: messages handed to the hooks *)
}.

Definition set_symbol_size v d := mk_unpackd v (treelevels d) (symbolsin d)
  (inodesin d) (symbol d) (symbol_eob d) (tree d) (uncompressed_size d)
  (fpIn d) (fpOut d) (diag d).
Definition set_treelevels v d := mk_unpackd (symbol_size d) v (symbolsin d)
  (inodesin d) (symbol d) (symbol_eob d) (tree d) (uncompressed_size d)
  (fpIn d) (fpOut d) (diag d).
Definition set_symbolsin v d := mk_unpackd (symbol_size d) (treelevels d) v
  (inodesin d) (symbol d) (symbol_eob d) (tree d) (uncompressed_size d)
  (fpIn d) (fpOut d) (diag d).
Definition set_inodesin v d := mk_unpackd (symbol_size d) (treelevels d)
  (symbolsin d) v (symbol d) (symbol_eob d) (tree d) (uncompressed_size d)
  (fpIn d) (fpOut d) (diag d).
Definition set_symbol v d := mk_unpackd (symbol_size d) (treelevels d)
  (symbolsin d) (inodesin d) v (symbol_eob d) (tree d) (uncompressed_size d)
  (fpIn d) (fpOut d) (diag d).
Definition set_symbol_eob v d := mk_unpackd (symbol_size d) (treelevels d)
  (symbolsin d) (inodesin d) (symbol d) v (tree d) (uncompressed_size d)
  (fpIn d) (fpOut d) (diag d).
Definition set_tree v d := mk_unpackd (symbol_size d) (treelevels d)
  (symbolsin d) (inodesin d) (symbol d) (symbol_eob d) v (uncompressed_size d)
  (fpIn d) (fpOut d) (diag d).
Definition set_uncompressed_size v d := mk_unpackd (symbol_size d)
  (treelevels d) (symbolsin d) (inodesin d) (symbol d) (symbol_eob d) (tree d)
  v (fpIn d) (fpOut d) (diag d).
Definition set_fpIn v d := mk_unpackd (symbol_size d) (treelevels d)
  (symbolsin d) (inodesin d) (symbol d) (symbol_eob d) (tree d)
  (uncompressed_size d) v (fpOut d) (diag d).
Definition set_fpOut v d := mk_unpackd (symbol_size d) (treelevels d)
  (symbolsin d) (inodesin d) (symbol d) (symbol_eob d) (tree d)
  (uncompressed_size d) (fpIn d) v (diag d).
Definition set_diag v d := mk_unpackd (symbol_size d) (treelevels d)
  (symbolsin d) (inodesin d) (symbol d) (symbol_eob d) (tree d)
  (uncompressed_size d) (fpIn d) (fpOut d) v.

(** ** The reporting hooks

    [int maybe_err(char*fmt,...) { }] and [int maybe_errx(char*fmt,...) { }]:
    the descriptor is returned as it was; only the ghost trace grows. *)

Definition maybe_err (fmt : string) (d : unpack_descriptor) : unpack_descriptor :=
  set_diag (diag d ++ [fmt]) d.

Definition maybe_errx (fmt : string) (d : unpack_descriptor) : unpack_descriptor :=
  set_diag (diag d ++ [fmt]) d.

Definition msg_read_header : string := "Error reading pack header".
Definition msg_insane_levels : string := "Huffman tree has insane levels".
Definition msg_truncated : string := "File appears to be truncated".
Definition msg_bad_symbol_table : string := "Bad symbol table".
Definition msg_symbol_truncated : string := "Symbol table truncated".
Definition msg_file_corrupt : string := "File corrupt".
Definition msg_premature_eof : string := "Premature EOF".

(** ** unpackd_fill_inodesin

    The source recurses on [level + 1] while [level < treelevels]; [fuel]
    bounds the depth of that recursion and [unpackd_fill_inodesin] supplies
    [treelevels - level], which is what the recursion needs. *)

Fixpoint fill_inodesin_rec (fuel : nat) (d : unpack_descriptor) (level : Z)
  : option unpack_descriptor :=
  if decide (level < treelevels d) then
    match fuel with
    | O => None
    | S fuel' =>
        d1 ← fill_inodesin_rec fuel' d (level + 1);
        i1 ← aget (inodesin d1) (level + 1);
        s1 ← aget (symbolsin d1) (level + 1);
        ino ← aset (inodesin d1) level ((i1 + s1) `quot` 2);
        Some (set_inodesin ino d1)
    end
  else
    ino ← aset (inodesin d) level 0;
    Some (set_inodesin ino d).

Definition unpackd_fill_inodesin (d : unpack_descriptor) (level : Z)
  : option unpack_descriptor :=
  fill_inodesin_rec (Z.to_nat (treelevels d - level)) d level.

(** ** accepted_bytes

    Adds [newbytes] to the counter that [bytes_in] points to, unless the
    pointer is NULL; [None] stands for NULL. *)

Definition accepted_bytes (bytes_in : option Z) (newbytes : Z) : option Z :=
  (λ n, n + newbytes) <$> bytes_in.

(** ** unpack_parse_header *)

(** [for (i = lo; i < hi; i++) body], for a body that leaves the bounds
    alone, as every loop of [unpack_parse_header] does. *)
Fixpoint for_each {S} (idx : list Z) (body : Z → S → option S) (s : S)
  : option S :=
  match idx with
  | [] => Some s
  | i :: idx' => s' ← body i s; for_each idx' body s'
  end.

(** Body of the loop over the levels symbol count table (lines 205-208). *)
Definition read_count (i : Z) (d : unpack_descriptor) : option unpack_descriptor :=
  let '(thisbyte, rest) := fgetc (fpIn d) in
  let d := set_fpIn rest d in
  let d := if decide (thisbyte = EOF) then maybe_err msg_truncated d else d in
  sin ← aset (symbolsin d) i (to_uchar thisbyte);
  let d := set_symbolsin sin d in
  c ← aget (symbolsin d) i;
  Some (set_symbol_size (symbol_size d + c) d).

(** Body of the inner loop of the symbol table (lines 232-234). *)
Definition read_symbol (j : Z) (d : unpack_descriptor) : option unpack_descriptor :=
  let '(thisbyte, rest) := fgetc (fpIn d) in
  let d := set_fpIn rest d in
  let d := if decide (thisbyte = EOF) then maybe_errx msg_symbol_truncated d else d in
  tab ← aset (symbol d) (symbol_eob d) (to_char thisbyte);
  Some (set_symbol_eob (symbol_eob d + 1) (set_symbol tab d)).

(** Body of the outer loop of the symbol table (lines 230-236). *)
Definition read_level (i : Z) (d : unpack_descriptor) : option unpack_descriptor :=
  tr ← aset (tree d) i (symbol_eob d);
  let d := set_tree tr d in
  n ← aget (symbolsin d) i;
  for_each (seqZ 0 n) read_symbol d.

(** [unpackd->symbolsin[unpackd->treelevels]++] (lines 228 and 240). *)
Definition incr_last_symbolsin (d : unpack_descriptor) : option unpack_descriptor :=
  c ← aget (symbolsin d) (treelevels d);
  sin ← aset (symbolsin d) (treelevels d) (c + 1);
  Some (set_symbolsin sin d).

(** The descriptor is a local of [unpack], uninitialised on entry; every
    field is written before it is read, so the initial content is
    immaterial and fixed here to empty tables. *)
Definition unpackd0 (input : list byte) : unpack_descriptor :=
  mk_unpackd 0 0 [] [] [] 0 [] 0 input [] [].

(** [prelen] is 0 and [bytes_in] is NULL in the only call ([main] passes
    [unpack(in_fd, out_fd, 0, 0, 0)]): nothing is prepended to [hdr], and
    [accepted_bytes None _] is [None], so the counter is not threaded
    through.  [read] fills [hdr[0]] from the input;
    on an empty input [hdr[0]] is read uninitialised. *)
Definition unpack_parse_header (input : list byte) : option unpack_descriptor :=
  match input with
  | [] => None
  | hdr0 :: rest =>
      let d := set_fpIn rest (unpackd0 input) in
      (* Reset uncompressed size *)
      let d := set_uncompressed_size 0 d in
      (* Get the levels of the tree *)
      let d := set_treelevels (byte_val hdr0) d in
      let d := if decide (treelevels d > HTREE_MAXLEVEL ∨ treelevels d < 1)
               then maybe_errx msg_insane_levels d else d in
      (* Allocate for the tables of bounds and the tree itself *)
      let d := set_inodesin (calloc (treelevels d) 0) d in
      let d := set_symbolsin (calloc (treelevels d) 0) d in
      let d := set_tree (calloc (treelevels d) 0) d in
      (* We count from 0 so adjust to match array upper bound *)
      let d := set_treelevels (treelevels d - 1) d in
      (* Read the levels symbol count table and calculate total *)
      let d := set_symbol_size 1 d in
      d ← for_each (seqZ 0 (treelevels d + 1)) read_count d;
      let d := if decide (symbol_size d > 256)
               then maybe_errx msg_bad_symbol_table d else d in
      (* Allocate for the symbol table, point symbol_eob at the beginning *)
      let d := set_symbol (calloc (symbol_size d) Byte.x00) d in
      let d := set_symbol_eob 0 d in
      d ← incr_last_symbolsin d;
      d ← for_each (seqZ 0 (treelevels d + 1)) read_level d;
      (* Now, take account for the EOB symbol as well *)
      d ← incr_last_symbolsin d;
      unpackd_fill_inodesin d 0
  end.

(** ** unpack_decode *)

(** The locals of [unpack_decode] that live across iterations. *)
Record decode_state := mk_dstate {
  thislevel : Z;
  thiscode : Z;
  bytes_out : Z
}.

(** What one turn of the bit loop does to the control flow. *)
Inductive bit_result :=
| Next (st : decode_state) (d : unpack_descriptor)
| Finished (st : decode_state) (d : unpack_descriptor).

(** Body of [for (i = 7; i >= 0; i--)] (lines 280-303). *)
Definition decode_bit (thisbyte i : Z) (st : decode_state) (d : unpack_descriptor)
  : option bit_result :=
  let code := Z.lor (Z.shiftl (thiscode st) 1) (Z.land (Z.shiftr thisbyte i) 1) in
  ino ← aget (inodesin d) (thislevel st);
  (* Did we got a symbol? (referencing leaf node) *)
  if decide (code >= ino) then
    let inlevelindex := code - ino in
    sin ← aget (symbolsin d) (thislevel st);
    let d := if decide (inlevelindex > sin) then maybe_errx msg_file_corrupt d else d in
    base ← aget (tree d) (thislevel st);
    let thissymbol := base + inlevelindex in
    if decide (thissymbol = symbol_eob d) then
      Some (Finished (mk_dstate (thislevel st) code (bytes_out st)) d)
    else
      c ← aget (symbol d) thissymbol;
      let d := set_fpOut (fpOut d ++ [c]) d in
      (* Prepare for next input *)
      Some (Next (mk_dstate 0 0 (bytes_out st + 1)) d)
  else
    let lvl := thislevel st + 1 in
    let d := if decide (lvl > treelevels d) then maybe_errx msg_file_corrupt d else d in
    Some (Next (mk_dstate lvl code (bytes_out st)) d).

(** The bit loop over one input byte; [pos] lists the bit positions still
    to be visited, [7; 6; ...; 0] on entry. *)
Fixpoint decode_bits (thisbyte : Z) (pos : list Z) (st : decode_state)
  (d : unpack_descriptor) : option bit_result :=
  match pos with
  | [] => Some (Next st d)
  | i :: pos' =>
      r ← decode_bit thisbyte i st d;
      match r with
      | Next st' d' => decode_bits thisbyte pos' st' d'
      | Finished st' d' => Some (Finished st' d')
      end
  end.

Definition bit_positions : list Z := [7; 6; 5; 4; 3; 2; 1; 0].

(** [while ((thisbyte = fgetc(unpackd->fpIn)) != EOF)], by recursion on
    the bytes still in the stream.  Both exits reach the label
    [finished]; the result tells them apart only for the theorems. *)
Fixpoint decode_loop (input : list byte) (st : decode_state)
  (d : unpack_descriptor) : option bit_result :=
  match input with
  | [] => Some (Next st (set_fpIn [] d))
  | b :: rest =>
      r ← decode_bits (byte_val b) bit_positions st (set_fpIn rest d);
      match r with
      | Next st' d' => decode_loop rest st' d'
      | Finished st' d' => Some (Finished st' d')
      end
  end.

Definition result_state (r : bit_result) : decode_state :=
  match r with Next st _ | Finished st _ => st end.
Definition result_desc (r : bit_result) : unpack_descriptor :=
  match r with Next _ d | Finished _ d => d end.
Definition is_finished (r : bit_result) : bool :=
  match r with Finished _ _ => true | Next _ _ => false end.

(** The code at the label [finished] (lines 308-310). *)
Definition decode_finished (out : Z) (d : unpack_descriptor) : unpack_descriptor :=
  let d := if decide (out ≠ uncompressed_size d)
           then maybe_errx msg_premature_eof d else d in
  set_uncompressed_size out d.

Definition decode_state0 : decode_state := mk_dstate 0 0 0.

Definition unpack_decode (d : unpack_descriptor) : option unpack_descriptor :=
  r ← decode_loop (fpIn d) decode_state0 d;
  Some (decode_finished (bytes_out (result_state r)) (result_desc r)).

(** ** unpack and main *)

(** [free] and [fclose]: the tables are gone and the output is flushed;
    the scalar fields of the descriptor, a local of [unpack], remain. *)
Definition unpack_descriptor_fini (d : unpack_descriptor) : unpack_descriptor := d.

(** What a run leaves behind: the value [unpack] returns, the content of
    the output file, and the ghost trace of hook calls. *)
Record run := mk_run {
  returned : Z;
  written : list byte;
  reported : list string
}.

Definition unpack (input : list byte) : option run :=
  d ← unpack_parse_header input;
  d ← unpack_decode d;
  let d := unpack_descriptor_fini d in
  (* If we reached here, the unpack was successful *)
  Some (mk_run (uncompressed_size d) (fpOut d) (diag d)).

(** Exit status of [main] once both files are open: 0 after the message
    "File was successfully decompressed", 1 after "FAILED". *)
Definition main (input : list byte) : option Z :=
  r ← unpack input;
  Some (if decide (returned r > 0) then 0 else 1).

(** ** The counter of accepted bytes

    [unpack_parse_header] and [unpack_decode] as they run when the caller
    hands them a counter, [bytes_in] not NULL: the statements are those of
    the functions above, with the calls of [accepted_bytes] (lines 172,
    210, 236 and 272) at their places. *)

(** Body of the outer loop of the symbol table, line 236 included. *)
Definition read_level_in (i : Z) (db : unpack_descriptor * option Z)
  : option (unpack_descriptor * option Z) :=
  d ← read_level i db.1;
  n ← aget (symbolsin d) i;
  Some (d, accepted_bytes db.2 n).

Definition unpack_parse_header_in (bytes_in : option Z) (input : list byte)
  : option (unpack_descriptor * option Z) :=
  match input with
  | [] => None
  | hdr0 :: rest =>
      let d := set_fpIn rest (unpackd0 input) in
      let bytes_in := accepted_bytes bytes_in PACK_HEADER_LENGTH in
      let d := set_uncompressed_size 0 d in
      let d := set_treelevels (byte_val hdr0) d in
      let d := if decide (treelevels d > HTREE_MAXLEVEL ∨ treelevels d < 1)
               then maybe_errx msg_insane_levels d else d in
      let d := set_inodesin (calloc (treelevels d) 0) d in
      let d := set_symbolsin (calloc (treelevels d) 0) d in
      let d := set_tree (calloc (treelevels d) 0) d in
      let d := set_treelevels (treelevels d - 1) d in
      let d := set_symbol_size 1 d in
      d ← for_each (seqZ 0 (treelevels d + 1)) read_count d;
      let bytes_in := accepted_bytes bytes_in (treelevels d) in
      let d := if decide (symbol_size d > 256)
               then maybe_errx msg_bad_symbol_table d else d in
      let d := set_symbol (calloc (symbol_size d) Byte.x00) d in
      let d := set_symbol_eob 0 d in
      d ← incr_last_symbolsin d;
      db ← for_each (seqZ 0 (treelevels d + 1)) read_level_in (d, bytes_in);
      d ← incr_last_symbolsin db.1;
      d ← unpackd_fill_inodesin d 0;
      Some (d, db.2)
  end.


(** ** Vocabulary of the statements

    These functions describe results; none of them is part of the
    program. *)

Definition zsum (l : list Z) : Z := foldr Z.add 0 l.

(** The values that [n] successive calls of [fgetc] return on stream [s]:
    its bytes while there are some, [EOF] from then on. *)
Fixpoint fgetc_n (n : nat) (s : list byte) : list Z :=
  match n with
  | O => []
  | S n' => (fgetc s).1 :: fgetc_n n' (fgetc s).2
  end.

(** One message per call, among [n], that returned [EOF]. *)
Fixpoint eof_msgs (msg : string) (n : nat) (s : list byte) : list string :=
  match n with
  | O => []
  | S n' =>
      (if decide ((fgetc s).1 = EOF) then [msg] else []) ++
      eof_msgs msg n' (fgetc s).2
  end.

(** The table [cs] with [k] added to its last cell. *)
Fixpoint bump_last (k : Z) (cs : list Z) : list Z :=
  match cs with
  | [] => []
  | [c] => [c + k]
  | c :: cs' => c :: bump_last k cs'
  end.

(** Where each level starts in the symbol table, from offset [e], for the
    leaf counts [cs]. *)
Fixpoint level_offsets (e : Z) (cs : list Z) : list Z :=
  match cs with
  | [] => []
  | c :: cs' => e :: level_offsets (e + c) cs'
  end.

(** The count table as [unpack_parse_header] reads it after header byte
    [hdr] from the rest [s] of the container. *)
Definition header_counts (hdr : byte) (s : list byte) : list Z :=
  to_uchar <$> fgetc_n (Z.to_nat (byte_val hdr)) s.

(** How many bytes the symbol-table loop reads. *)
Definition table_bytes (hdr : byte) (s : list byte) : nat :=
  Z.to_nat (1 + zsum (header_counts hdr s)).

Definition header_diag (hdr : byte) (s : list byte) : list string :=
  (if decide (byte_val hdr > HTREE_MAXLEVEL ∨ byte_val hdr < 1)
   then [msg_insane_levels] else []) ++
  eof_msgs msg_truncated (Z.to_nat (byte_val hdr)) s ++
  (if decide (1 + zsum (header_counts hdr s) > 256)
   then [msg_bad_symbol_table] else []) ++
  eof_msgs msg_symbol_truncated (table_bytes hdr s)
    (drop (Z.to_nat (byte_val hdr)) s).

(** The descriptor that header [hdr :: s] leads to, up to the
    internal-node table [ino]. *)
Definition parsed (hdr : byte) (s : list byte) (ino : list Z) : unpack_descriptor :=
  mk_unpackd
    (1 + zsum (header_counts hdr s))
    (byte_val hdr - 1)
    (bump_last 2 (header_counts hdr s))
    ino
    (to_char <$> fgetc_n (table_bytes hdr s) (drop (Z.to_nat (byte_val hdr)) s))
    (Z.of_nat (table_bytes hdr s))
    (level_offsets 0 (bump_last 1 (header_counts hdr s)))
    0
    (drop (table_bytes hdr s) (drop (Z.to_nat (byte_val hdr)) s))
    []
    (header_diag hdr s).

(** The part of the descriptor that [unpack_decode] only reads. *)
Definition tables (d : unpack_descriptor) :=
  (symbol_size d, treelevels d, symbolsin d, inodesin d, symbol d,
   symbol_eob d, tree d, uncompressed_size d).

(** [r] continues [st], [d] after emitting the bytes [emitted]. *)
Definition emits (st : decode_state) (d : unpack_descriptor)
    (emitted : list byte) (r : bit_result) : Prop :=
  tables (result_desc r) = tables d ∧
  fpOut (result_desc r) = fpOut d ++ emitted ∧
  bytes_out (result_state r) = bytes_out st + Z.of_nat (length emitted).

(** What [unpackd_fill_inodesin] is meant to establish from [level] down. *)
Definition inodes_from (level : Z) (d : unpack_descriptor) : Prop :=
  aget (inodesin d) (treelevels d) = Some 0 ∧
  ∀ L, level <= L < treelevels d →
    ∃ i1 s1, aget (inodesin d) (L + 1) = Some i1 ∧
             aget (symbolsin d) (L + 1) = Some s1 ∧
             aget (inodesin d) L = Some ((i1 + s1) `quot` 2).

(** The tables have one cell per level, [0 .. treelevels]. *)
Definition tables_allocated (d : unpack_descriptor) : Prop :=
  0 <= treelevels d ∧
  Z.of_nat (length (symbolsin d)) = treelevels d + 1 ∧
  Z.of_nat (length (inodesin d)) = treelevels d + 1.

(** How many bytes [unpack_parse_header] took from [input] for the symbol
    table: all it consumed, less the header byte and the count table. *)
Definition symbol_bytes_consumed (input : list byte) (d : unpack_descriptor) : Z :=
  Z.of_nat (length input) - PACK_HEADER_LENGTH - (treelevels d + 1)
  - Z.of_nat (length (fpIn d)).

(** The descriptor that the header [01 02 41 42 c] leaves, the stream
    standing at [rest]. *)
Definition one_level_desc (c : byte) (rest out : list byte) (dg : list string)
  : unpack_descriptor :=
  mk_unpackd 3 0 [4] [0] [Byte.x41; Byte.x42; c] 3 [0] 0 rest out dg.

(** The byte a single-level tree over 'A', 'B' gives for one bit. *)
Definition one_level_symbol (thisbyte i : Z) : byte :=
  if decide (Z.land (Z.shiftr thisbyte i) 1 = 0) then Byte.x41 else Byte.x42.

(** The shape [unpack_parse_header] gives a descriptor, as far as
    [unpack_decode] relies on it. *)
Definition desc_ok (d : unpack_descriptor) : Prop :=
  tables_allocated d ∧ inodes_from 0 d ∧
  Forall (λ c, 0 <= c) (symbolsin d) ∧
  (∃ cs c, symbolsin d = cs ++ [c] ∧ 2 <= c) ∧
  tree d = level_offsets 0 (symbolsin d) ∧
  symbol_eob d = Z.of_nat (length (symbol d)) ∧
  symbol_eob d = zsum (symbolsin d) - 1.

(** The locals of [unpack_decode] between two turns of the bit loop:
    either a symbol starts, or the code so far addresses an internal node
    of the level above. *)
Definition state_ok (d : unpack_descriptor) (st : decode_state) : Prop :=
  (thislevel st = 0 ∧ thiscode st = 0) ∨
  (1 <= thislevel st <= treelevels d ∧
   ∃ ip, aget (inodesin d) (thislevel st - 1) = Some ip ∧ 0 <= thiscode st < ip).

(** The result [r] with the input stream of its descriptor set to [x]. *)
Definition with_fpIn (x : list byte) (r : bit_result) : bit_result :=
  match r with
  | Next st d => Next st (set_fpIn x d)
  | Finished st d => Finished st (set_fpIn x d)
  end.

(** *** Canonical codes

    The code of a leaf is not stored anywhere: it is the number of the
    leaf among the nodes of its level, internal nodes first, written on
    as many bits as the level is deep. *)

(** The bits of an input byte in the order the bit loop visits them. *)
Definition byte_bits (b : byte) : list Z :=
  (λ i, Z.land (Z.shiftr (byte_val b) i) 1) <$> bit_positions.

Definition bits_of (input : list byte) : list Z :=
  concat (byte_bits <$> input).

(** The [len] low bits of [c], most significant first. *)
Fixpoint code_bits (len : nat) (c : Z) : list Z :=
  match len with
  | O => []
  | S k => Z.land (Z.shiftr c (Z.of_nat k)) 1 :: code_bits k c
  end.

Definition ino_at (d : unpack_descriptor) (L : Z) : Z :=
  default 0 (aget (inodesin d) L).
Definition sin_at (d : unpack_descriptor) (L : Z) : Z :=
  default 0 (aget (symbolsin d) L).
Definition base_at (d : unpack_descriptor) (L : Z) : Z :=
  default 0 (aget (tree d) L).

(** A leaf is named by its level and its index in the level. *)
Definition leaf_code (d : unpack_descriptor) (leaf : Z * Z) : list Z :=
  code_bits (S (Z.to_nat leaf.1)) (ino_at d leaf.1 + leaf.2).

Definition leaf_byte (d : unpack_descriptor) (leaf : Z * Z) : byte :=
  default Byte.x00 (aget (symbol d) (base_at d leaf.1 + leaf.2)).

(** The last leaf of the deepest level is EOB. *)
Definition eob_leaf (d : unpack_descriptor) : Z * Z :=
  (treelevels d, sin_at d (treelevels d) - 1).

(** A leaf that stands for a byte: any leaf but EOB. *)
Definition symbol_leaf (d : unpack_descriptor) (leaf : Z * Z) : Prop :=
  0 <= leaf.1 <= treelevels d ∧ 0 <= leaf.2 < sin_at d leaf.1 ∧ leaf ≠ eob_leaf d.

(** The tree is full: level 0 has the two children of the root, and the
    nodes of every deeper level are the children, two each, of the
    internal nodes of the level above. *)
Definition complete_tree (d : unpack_descriptor) : Prop :=
  ino_at d 0 + sin_at d 0 = 2 ∧
  ∀ L, 0 <= L < treelevels d →
    ino_at d (L + 1) + sin_at d (L + 1) = 2 * ino_at d L.

(** The bit loop on a sequence of bits, byte boundaries forgotten. *)
Fixpoint decode_stream (bits : list Z) (st : decode_state) (d : unpack_descriptor)
  : option bit_result :=
  match bits with
  | [] => Some (Next st d)
  | v :: bits' =>
      r ← decode_bit v 0 st d;
      match r with
      | Next st' d' => decode_stream bits' st' d'
      | Finished st' d' => Some (Finished st' d')
      end
  end.


(** ** Concrete descriptors and containers used below *)

Definition C2_sample : unpack_descriptor :=
  mk_unpackd 6 2 [1; 2; 3] [0; 0; 0] [] 0 [0; 1; 3] 0 [] [] [].

(** One level, count byte 2, then 'A' 'B' 'C' and one more byte. *)
Definition one_level_container : list byte :=
  [Byte.x01; Byte.x02; Byte.x41; Byte.x42; Byte.x43; Byte.x00].

(** Two levels: 'A' at level 0, 'B' and EOB at level 1; then the codes
    1, 00, 01 padded with zeros. *)
Definition two_level_container : list byte :=
  [Byte.x02; Byte.x01; Byte.x00; Byte.x41; Byte.x42; Byte.x88].

(** Two levels with no leaf at level 0: both count bytes are 0, the single
    symbol 'A' belongs to level 1; then the bit 1 and padding. *)
Definition degenerate_container : list byte :=
  [Byte.x02; Byte.x00; Byte.x00; Byte.x41; Byte.x80].

(** Three levels, counts 0 0 1, symbols 'A' 'B', then the bit 1 and
    padding: at level 0 the first bit gives index 1 while the level has no
    leaf. *)
Definition corrupt_index_container : list byte :=
  [Byte.x03; Byte.x00; Byte.x00; Byte.x01; Byte.x41; Byte.x42; Byte.x80].

(** One level, count 0, symbol 'A'; eight 0 bits, each of them 'A'.  The
    stream ends there, no code of EOB in it. *)
Definition exhausted_container : list byte :=
  [Byte.x01; Byte.x00; Byte.x41; Byte.x00].

(** The same, followed by the bit 1, the code of EOB, and padding. *)
Definition eob_container : list byte :=
  [Byte.x01; Byte.x00; Byte.x41; Byte.x00; Byte.x80].

(** [two_level_container] with its last byte cut short of the code of EOB:
    the codes 1, 00, 00, 00 and one pending bit. *)
Definition truncated_container : list byte :=
  [Byte.x02; Byte.x01; Byte.x00; Byte.x41; Byte.x42; Byte.x80].

(** One level, count 0, symbol 'A', and no bitstream at all. *)
Definition no_bitstream_container : list byte :=
  [Byte.x01; Byte.x00; Byte.x41].

(** Header byte 25, 25 count bytes 0, the symbol 'A', eight 0 bits. *)
Definition depth25_container : list byte :=
  Byte.x19 :: replicate 25 Byte.x00 ++ [Byte.x41; Byte.x00].

(** Header byte 1 and header byte 24, with tables in full. *)
Definition depth1_container : list byte :=
  [Byte.x01; Byte.x00; Byte.x41; Byte.x80].
Definition depth24_container : list byte :=
  Byte.x18 :: replicate 24 Byte.x00 ++ [Byte.x41; Byte.x00].

Definition eight_A : list byte := replicate 8 Byte.x41.

(** * Properties *)

(** ** Bytes and arrays *)

Lemma byte_val_range (b : byte) : 0 <= byte_val b < 256.
Proof.
  unfold byte_val. pose proof (Byte.to_N_bounded b) as Hb. lia.
Qed.

Lemma to_char_byte_val (b : byte) : to_char (byte_val b) = b.
Proof.
  unfold to_char. pose proof (byte_val_range b) as Hb.
  rewrite Z.mod_small by lia. unfold byte_val.
  rewrite N2Z.id, Byte.of_to_N. reflexivity.
Qed.

Lemma to_uchar_byte_val (b : byte) : to_uchar (byte_val b) = byte_val b.
Proof. unfold to_uchar. apply Z.mod_small, byte_val_range. Qed.

Lemma aget_Some {A} (a : list A) (i : Z) (x : A) :
  aget a i = Some x ↔ 0 <= i ∧ a !! Z.to_nat i = Some x.
Proof.
  unfold aget. destruct (decide (0 <= i)) as [Hi|Hi]; split.
  - by intros ->.
  - by intros [_ ->].
  - done.
  - intros [? _]. lia.
Qed.

Lemma aget_lt {A} (a : list A) (i : Z) (x : A) :
  aget a i = Some x → 0 <= i < Z.of_nat (length a).
Proof.
  intros [Hi Hl]%aget_Some. apply lookup_lt_Some in Hl. lia.
Qed.

Lemma aget_is_Some {A} (a : list A) (i : Z) :
  0 <= i < Z.of_nat (length a) → is_Some (aget a i).
Proof.
  intros Hi. unfold aget. rewrite decide_True by lia.
  apply lookup_lt_is_Some. lia.
Qed.

Lemma aset_Some {A} (a : list A) (i : Z) (v : A) :
  0 <= i < Z.of_nat (length a) → aset a i v = Some (<[Z.to_nat i := v]> a).
Proof. intros Hi. unfold aset. by rewrite decide_True. Qed.

Lemma aget_insert_eq {A} (a : list A) (i : Z) (v : A) :
  0 <= i < Z.of_nat (length a) → aget (<[Z.to_nat i := v]> a) i = Some v.
Proof.
  intros Hi. unfold aget. rewrite decide_True by lia.
  apply list_lookup_insert_eq. lia.
Qed.

Lemma aget_insert_ne {A} (a : list A) (i j : Z) (v : A) :
  0 <= i → 0 <= j → i ≠ j → aget (<[Z.to_nat i := v]> a) j = aget a j.
Proof.
  intros Hi Hj Hne. unfold aget. rewrite !decide_True by lia.
  apply list_lookup_insert_ne. lia.
Qed.

(** ** The internal-node table *)

Lemma fill_inodesin_rec_spec (fuel : nat) :
  ∀ (d : unpack_descriptor) (level : Z),
    tables_allocated d → 0 <= level <= treelevels d →
    treelevels d - level <= Z.of_nat fuel →
    ∃ ino, fill_inodesin_rec fuel d level = Some (set_inodesin ino d) ∧
           length ino = length (inodesin d) ∧
           inodes_from level (set_inodesin ino d).
Proof.
  induction fuel as [|fuel IH]; intros d level (Hlv & Hsl & Hil) Hlevel Hfuel; simpl.
  - rewrite decide_False by lia. assert (level = treelevels d) as -> by lia.
    rewrite aset_Some by lia. simpl. eexists. split; [done|].
    split; [by rewrite length_insert|]. split; simpl.
    + apply aget_insert_eq. lia.
    + intros L HL. lia.
  - case_decide as Hlt.
    + destruct (IH d (level + 1)) as (ino1 & -> & Hlen1 & Hz & Hrec);
        [done | lia | lia |]. simpl in *.
      destruct (aget_is_Some ino1 (level + 1)) as [i1 Hi1]; [lia|].
      destruct (aget_is_Some (symbolsin d) (level + 1)) as [s1 Hs1]; [lia|].
      rewrite Hi1. simpl. rewrite Hs1. simpl.
      rewrite aset_Some by lia. simpl. eexists. split; [done|].
      split; [rewrite length_insert; lia|]. split; simpl.
      * rewrite aget_insert_ne by lia. done.
      * intros L HL. destruct (decide (L = level)) as [->|Hne].
        -- exists i1, s1. rewrite aget_insert_ne by lia.
           rewrite aget_insert_eq by lia. done.
        -- destruct (Hrec L) as (a & b & Ha & Hb & Hc); [lia|].
           exists a, b. rewrite !aget_insert_ne by lia. done.
    + assert (level = treelevels d) as -> by lia.
      rewrite aset_Some by lia. simpl. eexists. split; [done|].
      split; [by rewrite length_insert|]. split; simpl.
      * apply aget_insert_eq. lia.
      * intros L HL. lia.
Qed.

(** The fuel that [unpackd_fill_inodesin] supplies is never short: more
    of it changes nothing. *)
Lemma fill_inodesin_rec_fuel (fuel : nat) :
  ∀ (d : unpack_descriptor) (level : Z),
    treelevels d - level <= Z.of_nat fuel →
    fill_inodesin_rec fuel d level = unpackd_fill_inodesin d level.
Proof.
  unfold unpackd_fill_inodesin.
  induction fuel as [|fuel IH]; intros d level Hfuel.
  - by replace (Z.to_nat (treelevels d - level)) with 0%nat by lia.
  - destruct (decide (level < treelevels d)) as [Hlt|Hge].
    + replace (Z.to_nat (treelevels d - level))
        with (S (Z.to_nat (treelevels d - (level + 1)))) by lia.
      simpl. rewrite !decide_True by done. by rewrite IH by lia.
    + replace (Z.to_nat (treelevels d - level)) with 0%nat by lia.
      simpl. by rewrite !decide_False by done.
Qed.

Lemma unpackd_fill_inodesin_spec (d : unpack_descriptor) :
  tables_allocated d →
  ∃ ino, unpackd_fill_inodesin d 0 = Some (set_inodesin ino d) ∧
         length ino = length (inodesin d) ∧
         inodes_from 0 (set_inodesin ino d).
Proof.
  intros Hd. unfold unpackd_fill_inodesin.
  apply fill_inodesin_rec_spec; [done | destruct Hd; lia | lia].
Qed.

(** C2. For every descriptor whose tables are allocated for its levels,
    [unpackd_fill_inodesin] returns and leaves an internal-node table in
    which the deepest level has count 0 and every shallower level L has
    [inodesin[L] = (inodesin[L+1] + symbolsin[L+1]) / 2] with C's truncating
    division; the leaf counts are untouched. *)
Theorem C2_inodes_table (d : unpack_descriptor) :
  tables_allocated d →
  ∃ d', unpackd_fill_inodesin d 0 = Some d' ∧
        symbolsin d' = symbolsin d ∧ treelevels d' = treelevels d ∧
        aget (inodesin d') (treelevels d') = Some 0 ∧
        ∀ L, 0 <= L < treelevels d' →
          ∃ i1 s1, aget (inodesin d') (L + 1) = Some i1 ∧
                   aget (symbolsin d') (L + 1) = Some s1 ∧
                   aget (inodesin d') L = Some ((i1 + s1) `quot` 2).
Proof.
  intros Hd. destruct (unpackd_fill_inodesin_spec d Hd) as (ino & -> & _ & Hz & Hrec).
  eexists. split; [done|]. simpl. repeat split; [exact Hz | exact Hrec].
Qed.

(** C2 at a three-level descriptor with leaf counts 1, 2, 3. *)
Lemma C2_inodes_table_witness :
  ∃ d', unpackd_fill_inodesin C2_sample 0 = Some d' ∧
        symbolsin d' = symbolsin C2_sample ∧ treelevels d' = treelevels C2_sample ∧
        aget (inodesin d') (treelevels d') = Some 0 ∧
        ∀ L, 0 <= L < treelevels d' →
          ∃ i1 s1, aget (inodesin d') (L + 1) = Some i1 ∧
                   aget (symbolsin d') (L + 1) = Some s1 ∧
                   aget (inodesin d') L = Some ((i1 + s1) `quot` 2).
Proof.
  apply (C2_inodes_table C2_sample).
  unfold tables_allocated; simpl; lia.
Defined.
(** ** Reading the header *)

#[local] Arguments aget : simpl never.
#[local] Arguments aset : simpl never.
#[local] Arguments byte_val : simpl never.
#[local] Arguments to_uchar : simpl never.
#[local] Arguments to_char : simpl never.

Lemma fgetc_n_length (n : nat) (s : list byte) : length (fgetc_n n s) = n.
Proof. revert s. induction n as [|n IH]; intros s; simpl; [done|]. by rewrite IH. Qed.

Lemma fgetc_drop (s : list byte) : (fgetc s).2 = drop 1 s.
Proof. by destruct s. Qed.

Lemma fgetc_n_app (a b : nat) (s : list byte) :
  fgetc_n (a + b) s = fgetc_n a s ++ fgetc_n b (drop a s).
Proof.
  revert s. induction a as [|a IH]; intros s; simpl; [done|].
  rewrite IH. destruct s; simpl; [|done]. by rewrite drop_nil.
Qed.

Lemma eof_msgs_app (msg : string) (a b : nat) (s : list byte) :
  eof_msgs msg (a + b) s = eof_msgs msg a s ++ eof_msgs msg b (drop a s).
Proof.
  revert s. induction a as [|a IH]; intros s; simpl; [done|].
  rewrite IH, <- (assoc (++)). destruct s; simpl; [|done]. by rewrite drop_nil.
Qed.

Lemma fgetc_n_full (l rest : list byte) :
  fgetc_n (length l) (l ++ rest) = byte_val <$> l.
Proof. induction l as [|b l IH]; simpl; [done|]. by rewrite IH. Qed.

Lemma eof_msgs_full (msg : string) (l rest : list byte) :
  eof_msgs msg (length l) (l ++ rest) = [].
Proof.
  induction l as [|b l IH]; simpl; [done|]. rewrite IH.
  pose proof (byte_val_range b). unfold EOF. by rewrite decide_False by lia.
Qed.

Lemma fgetc_n_range (n : nat) (s : list byte) :
  Forall (λ c, -1 <= c < 256) (fgetc_n n s).
Proof.
  revert s. induction n as [|n IH]; intros s; simpl; constructor; [|apply IH].
  destruct s as [|b s]; simpl; [unfold EOF; lia|].
  pose proof (byte_val_range b). lia.
Qed.

Lemma aset_middle {A} (pre post : list A) (o v : A) :
  aset (pre ++ o :: post) (Z.of_nat (length pre)) v = Some (pre ++ v :: post).
Proof.
  rewrite aset_Some by (rewrite length_app; simpl; lia).
  rewrite Nat2Z.id, insert_app_r_alt, Nat.sub_diag by lia. done.
Qed.

Lemma aget_middle {A} (pre post : list A) (o : A) :
  aget (pre ++ o :: post) (Z.of_nat (length pre)) = Some o.
Proof.
  apply aget_Some. split; [lia|]. rewrite Nat2Z.id. by apply list_lookup_middle.
Qed.

Lemma seqZ_of_nat_S (i : Z) (n : nat) :
  seqZ i (Z.of_nat (S n)) = i :: seqZ (i + 1) (Z.of_nat n).
Proof.
  rewrite seqZ_cons by lia. f_equal. f_equal; lia.
Qed.

Lemma read_count_eq (pre post : list Z) (o : Z) ss tl ino sy eob tr us s out dg :
  read_count (Z.of_nat (length pre))
    (mk_unpackd ss tl (pre ++ o :: post) ino sy eob tr us s out dg) =
  Some (mk_unpackd (ss + to_uchar (fgetc s).1) tl
          (pre ++ to_uchar (fgetc s).1 :: post) ino sy eob tr us (fgetc s).2 out
          (dg ++ if decide ((fgetc s).1 = EOF) then [msg_truncated] else [])).
Proof.
  unfold read_count. simpl. destruct (fgetc s) as [thisbyte rest]. simpl.
  case_decide; simpl; rewrite aset_middle; simpl; rewrite aget_middle; simpl.
  - done.
  - by rewrite (right_id [] (++)).
Qed.

(** The loop over the count table overwrites [old], one cell per level,
    with what [fgetc] returns, cast to [unsigned char]. *)
Lemma read_counts_spec (old : list Z) :
  ∀ pre post ss tl ino sy eob tr us s out dg,
    for_each (seqZ (Z.of_nat (length pre)) (Z.of_nat (length old))) read_count
      (mk_unpackd ss tl (pre ++ old ++ post) ino sy eob tr us s out dg) =
    Some (mk_unpackd (ss + zsum (to_uchar <$> fgetc_n (length old) s)) tl
            (pre ++ (to_uchar <$> fgetc_n (length old) s) ++ post)
            ino sy eob tr us (drop (length old) s) out
            (dg ++ eof_msgs msg_truncated (length old) s)).
Proof.
  induction old as [|o old IH]; intros pre post ss tl ino sy eob tr us s out dg.
  - simpl. rewrite Z.add_0_r, (right_id [] (++)), drop_0. done.
  - rewrite (length_cons o old), seqZ_of_nat_S. cbn [for_each].
    rewrite <- app_comm_cons, read_count_eq. cbn [mbind option_bind].
    specialize (IH (pre ++ [to_uchar (fgetc s).1]) post).
    rewrite length_app in IH. simpl length in IH.
    replace (Z.of_nat (length pre + 1)) with (Z.of_nat (length pre) + 1) in IH by lia.
    setoid_rewrite <- (assoc (++)) in IH. simpl in IH. rewrite IH.
    rewrite fgetc_drop, drop_drop. simpl.
    rewrite <- !(assoc (++)), fgetc_drop. f_equal. f_equal.
    symmetry. apply Z.add_assoc.
Qed.

Lemma read_symbol_eq (pre post : list byte) (o : byte) (j : Z)
    ss tl sin ino tr us s out dg :
  read_symbol j
    (mk_unpackd ss tl sin ino (pre ++ o :: post) (Z.of_nat (length pre)) tr us s out dg) =
  Some (mk_unpackd ss tl sin ino (pre ++ to_char (fgetc s).1 :: post)
          (Z.of_nat (length pre) + 1) tr us (fgetc s).2 out
          (dg ++ if decide ((fgetc s).1 = EOF) then [msg_symbol_truncated] else [])).
Proof.
  unfold read_symbol. simpl. destruct (fgetc s) as [thisbyte rest]. simpl.
  case_decide; simpl; rewrite aset_middle; simpl.
  - done.
  - by rewrite (right_id [] (++)).
Qed.

(** The inner loop of the symbol table stores what [fgetc] returns, cast
    to [char], from [symbol_eob] on. *)
Lemma read_symbols_spec (old : list byte) :
  ∀ idx pre post ss tl sin ino tr us s out dg,
    length idx = length old →
    for_each idx read_symbol
      (mk_unpackd ss tl sin ino (pre ++ old ++ post) (Z.of_nat (length pre))
         tr us s out dg) =
    Some (mk_unpackd ss tl sin ino
            (pre ++ (to_char <$> fgetc_n (length old) s) ++ post)
            (Z.of_nat (length pre) + Z.of_nat (length old))
            tr us (drop (length old) s) out
            (dg ++ eof_msgs msg_symbol_truncated (length old) s)).
Proof.
  induction old as [|o old IH];
    intros idx pre post ss tl sin ino tr us s out dg Hlen.
  - destruct idx; [|done]. simpl.
    rewrite Z.add_0_r, (right_id [] (++)), drop_0. done.
  - destruct idx as [|j idx]; [done|]. cbn [for_each].
    rewrite <- app_comm_cons, read_symbol_eq. cbn [mbind option_bind].
    specialize (IH idx (pre ++ [to_char (fgetc s).1]) post).
    rewrite length_app in IH. simpl length in IH.
    replace (Z.of_nat (length pre + 1)) with (Z.of_nat (length pre) + 1) in IH by lia.
    setoid_rewrite <- (assoc (++)) in IH. simpl in IH.
    rewrite IH by (simpl in Hlen; lia).
    rewrite fgetc_drop, drop_drop. simpl.
    rewrite <- !(assoc (++)), fgetc_drop. f_equal. f_equal. lia.
Qed.

Lemma zsum_app (l k : list Z) : zsum (l ++ k) = zsum l + zsum k.
Proof. induction l as [|x l IH]; simpl; [done|]. rewrite IH. lia. Qed.

Lemma zsum_nonneg (l : list Z) : Forall (λ c, 0 <= c) l → 0 <= zsum l.
Proof. induction 1; simpl; lia. Qed.

Lemma read_level_eq (tpre tpost spre spost : list Z) (t c : Z)
    (old pre post : list byte) ss tl ino us s out dg :
  length spre = length tpre → length old = Z.to_nat c → 0 <= c →
  read_level (Z.of_nat (length tpre))
    (mk_unpackd ss tl (spre ++ c :: spost) ino (pre ++ old ++ post)
       (Z.of_nat (length pre)) (tpre ++ t :: tpost) us s out dg) =
  Some (mk_unpackd ss tl (spre ++ c :: spost) ino
          (pre ++ (to_char <$> fgetc_n (length old) s) ++ post)
          (Z.of_nat (length pre) + Z.of_nat (length old))
          (tpre ++ Z.of_nat (length pre) :: tpost)
          us (drop (length old) s) out
          (dg ++ eof_msgs msg_symbol_truncated (length old) s)).
Proof.
  intros Hspre Hold Hc. unfold read_level. simpl.
  rewrite aset_middle. simpl. rewrite <- Hspre, aget_middle. simpl.
  apply read_symbols_spec. rewrite length_seqZ. lia.
Qed.

(** The outer loop of the symbol table: level by level, it records where
    the level starts and reads as many bytes as the level has leaves. *)
Lemma read_levels_spec (cs : list Z) :
  ∀ told tpre tpost spre spost (old pre post : list byte) ss tl ino us s out dg,
    length told = length cs → length spre = length tpre →
    Forall (λ c, 0 <= c) cs →
    length old = Z.to_nat (zsum cs) →
    for_each (seqZ (Z.of_nat (length tpre)) (Z.of_nat (length cs))) read_level
      (mk_unpackd ss tl (spre ++ cs ++ spost) ino (pre ++ old ++ post)
         (Z.of_nat (length pre)) (tpre ++ told ++ tpost) us s out dg) =
    Some (mk_unpackd ss tl (spre ++ cs ++ spost) ino
            (pre ++ (to_char <$> fgetc_n (length old) s) ++ post)
            (Z.of_nat (length pre) + Z.of_nat (length old))
            (tpre ++ level_offsets (Z.of_nat (length pre)) cs ++ tpost)
            us (drop (length old) s) out
            (dg ++ eof_msgs msg_symbol_truncated (length old) s)).
Proof.
  induction cs as [|c cs IH];
    intros told tpre tpost spre spost old pre post ss tl ino us s out dg
      Htold Hspre Hcs Hold.
  - destruct told; [|done]. simpl in Hold. destruct old; [|done]. simpl.
    rewrite Z.add_0_r, (right_id [] (++)). done.
  - destruct told as [|t told]; [done|].
    apply Forall_cons in Hcs as [Hc Hcs]. pose proof (zsum_nonneg cs Hcs) as Hsum.
    simpl in Hold.
    rewrite (length_cons c cs), seqZ_of_nat_S. cbn [for_each].
    rewrite <- (app_comm_cons told), <- (app_comm_cons cs).
    rewrite <- (take_drop (Z.to_nat c) old), <- (assoc (++)).
    assert (length (take (Z.to_nat c) old) = Z.to_nat c) as Hl1
      by (rewrite length_take; lia).
    assert (length (drop (Z.to_nat c) old) = Z.to_nat (zsum cs)) as Hl2
      by (rewrite length_drop; lia).
    rewrite read_level_eq by done.
    cbn [mbind option_bind].
    specialize (IH told (tpre ++ [Z.of_nat (length pre)]) tpost (spre ++ [c]) spost
      (drop (Z.to_nat c) old)
      (pre ++ (to_char <$> fgetc_n (length (take (Z.to_nat c) old)) s)) post).
    rewrite !length_app, length_fmap, fgetc_n_length in IH. simpl length in IH.
    setoid_rewrite <- (assoc (++)) in IH. simpl in IH.
    replace (Z.of_nat (length tpre + 1)) with (Z.of_nat (length tpre) + 1) in IH by lia.
    replace (Z.of_nat (length pre + length (take (Z.to_nat c) old)))
      with (Z.of_nat (length pre) + Z.of_nat (length (take (Z.to_nat c) old))) in IH by lia.
    rewrite IH by (simpl in Htold; first [done | lia]).
    rewrite length_app, fgetc_n_app, eof_msgs_app, fmap_app, <- drop_drop.
    rewrite <- !(assoc (++)). simpl level_offsets.
    rewrite Hl1, Z2Nat.id, Nat2Z.inj_add, Z2Nat.id, Z.add_assoc by lia. done.
Qed.

Lemma bump_last_snoc (k : Z) (cs : list Z) (c : Z) :
  bump_last k (cs ++ [c]) = cs ++ [c + k].
Proof.
  induction cs as [|x cs IH]; [done|]. simpl. rewrite IH.
  by destruct (cs ++ [c]) eqn:E; [destruct cs|].
Qed.

Lemma snoc_of_length {A} (l : list A) :
  (0 < length l)%nat → ∃ l' a, l = l' ++ [a].
Proof.
  induction l as [|a l' _] using rev_ind; [simpl; lia|]. eauto.
Qed.

Lemma incr_last_symbolsin_eq (cs : list Z) (c : Z) ss ino sy eob tr us s out dg :
  incr_last_symbolsin
    (mk_unpackd ss (Z.of_nat (length cs)) (cs ++ [c]) ino sy eob tr us s out dg) =
  Some (mk_unpackd ss (Z.of_nat (length cs)) (cs ++ [c + 1]) ino sy eob tr us s out dg).
Proof.
  unfold incr_last_symbolsin. simpl. rewrite aget_middle. simpl.
  by rewrite aset_middle.
Qed.

Lemma maybe_errx_if (P : Prop) `{!Decision P} (m : string) (d : unpack_descriptor) :
  (if decide P then maybe_errx m d else d) =
  set_diag (diag d ++ if decide P then [m] else []) d.
Proof.
  destruct d. case_decide; unfold maybe_errx, set_diag; simpl; [done|].
  by rewrite (right_id [] (++)).
Qed.

Lemma read_counts_all (n : nat) ss tl ino sy eob tr us s out dg :
  for_each (seqZ 0 (Z.of_nat n)) read_count
    (mk_unpackd ss tl (replicate n 0) ino sy eob tr us s out dg) =
  Some (mk_unpackd (ss + zsum (to_uchar <$> fgetc_n n s)) tl
          (to_uchar <$> fgetc_n n s) ino sy eob tr us (drop n s) out
          (dg ++ eof_msgs msg_truncated n s)).
Proof.
  pose proof (read_counts_spec (replicate n 0) [] [] ss tl ino sy eob tr us s out dg) as H.
  rewrite length_replicate in H. simpl in H.
  rewrite !(right_id [] (++)) in H. exact H.
Qed.

Lemma read_levels_all (cs : list Z) ss tl ino us s out dg :
  Forall (λ c, 0 <= c) cs →
  for_each (seqZ 0 (Z.of_nat (length cs))) read_level
    (mk_unpackd ss tl cs ino (replicate (Z.to_nat (zsum cs)) Byte.x00) 0
       (replicate (length cs) 0) us s out dg) =
  Some (mk_unpackd ss tl cs ino (to_char <$> fgetc_n (Z.to_nat (zsum cs)) s)
          (Z.of_nat (Z.to_nat (zsum cs))) (level_offsets 0 cs) us
          (drop (Z.to_nat (zsum cs)) s) out
          (dg ++ eof_msgs msg_symbol_truncated (Z.to_nat (zsum cs)) s)).
Proof.
  intros Hcs.
  pose proof (read_levels_spec cs (replicate (length cs) 0) [] [] [] []
    (replicate (Z.to_nat (zsum cs)) Byte.x00) [] [] ss tl ino us s out dg) as H.
  rewrite !length_replicate in H. simpl in H.
  rewrite !(right_id [] (++)) in H. by apply H.
Qed.

(** Reduce field updates and projections to an explicit record, innermost
    update first. *)
Ltac unpackd_norm :=
  repeat progress
    (cbv beta iota zeta delta
       [symbol_size treelevels symbolsin inodesin symbol symbol_eob tree
        uncompressed_size fpIn fpOut diag
        set_symbol_size set_treelevels set_symbolsin set_inodesin set_symbol
        set_symbol_eob set_tree set_uncompressed_size set_fpIn set_fpOut
        set_diag unpackd0 calloc];
     cbn [mbind option_bind]).

Lemma to_uchar_nonneg (c : Z) : 0 <= to_uchar c.
Proof. unfold to_uchar. apply Z.mod_pos_bound. lia. Qed.

Lemma header_counts_nonneg (hdr : byte) (s : list byte) :
  Forall (λ c, 0 <= c) (header_counts hdr s).
Proof.
  unfold header_counts. apply Forall_fmap, Forall_true. intros c.
  apply to_uchar_nonneg.
Qed.

Lemma header_counts_length (hdr : byte) (s : list byte) :
  length (header_counts hdr s) = Z.to_nat (byte_val hdr).
Proof. unfold header_counts. by rewrite length_fmap, fgetc_n_length. Qed.

(** The whole of [unpack_parse_header], for a header byte of at least 1:
    the function returns, and this is the descriptor it leaves. *)
Theorem parse_header_spec (hdr : byte) (s : list byte) :
  1 <= byte_val hdr →
  ∃ ino, unpack_parse_header (hdr :: s) = Some (parsed hdr s ino) ∧
         length ino = Z.to_nat (byte_val hdr) ∧
         inodes_from 0 (parsed hdr s ino).
Proof.
  intros Hhdr. unfold unpack_parse_header, parsed, header_diag, table_bytes.
  pose proof (header_counts_nonneg hdr s) as Hnn.
  pose proof (header_counts_length hdr s) as Hlen.
  rewrite !maybe_errx_if. unpackd_norm.
  replace (byte_val hdr - 1 + 1) with (Z.of_nat (Z.to_nat (byte_val hdr))) by lia.
  rewrite read_counts_all. unpackd_norm. rewrite maybe_errx_if. unpackd_norm.
  fold (header_counts hdr s).
  destruct (snoc_of_length (header_counts hdr s)) as (cs & c & Hcs); [lia|].
  rewrite Hcs in *. rewrite length_app in Hlen. simpl in Hlen.
  apply Forall_app in Hnn as [Hnn1 Hnn2]. rewrite Forall_singleton in Hnn2.
  replace (byte_val hdr - 1) with (Z.of_nat (length cs)) by lia.
  rewrite incr_last_symbolsin_eq. unpackd_norm.
  rewrite !bump_last_snoc.
  assert (zsum (cs ++ [c + 1]) = 1 + zsum (cs ++ [c])) as Hsum
    by (rewrite !zsum_app; simpl; lia).
  assert (length (cs ++ [c + 1]) = Z.to_nat (byte_val hdr)) as Hlen1
    by (rewrite length_app; simpl; lia).
  rewrite <- Hsum, <- Hlen1.
  replace (Z.of_nat (length cs) + 1) with (Z.of_nat (length (cs ++ [c + 1])))
    by (rewrite length_app; simpl; lia).
  rewrite read_levels_all
    by (apply Forall_app; split; [done|rewrite Forall_singleton; lia]).
  unpackd_norm. rewrite incr_last_symbolsin_eq. unpackd_norm.
  match goal with
  | |- ∃ _, unpackd_fill_inodesin ?d 0 = _ ∧ _ =>
      destruct (unpackd_fill_inodesin_spec d) as (ino & Hfill & Hino & Hinv)
  end.
  { unfold tables_allocated. simpl. rewrite !length_app, length_replicate. simpl. lia. }
  exists ino. rewrite Hfill. simpl in Hino. rewrite length_replicate in Hino.
  replace (c + 1 + 1) with (c + 2) in * by lia.
  replace (1 + zsum (cs ++ [c])) with (zsum (cs ++ [c + 1])) by lia.
  unfold set_inodesin in *. simpl in *.
  rewrite Hsum in *. rewrite Hlen1 in *. rewrite <- !(assoc (++)) in *.
  repeat split; [lia | apply Hinv..].
Qed.

Lemma parse_header_zero (hdr : byte) (s : list byte) :
  byte_val hdr < 1 → unpack_parse_header (hdr :: s) = None.
Proof.
  intros Hhdr. pose proof (byte_val_range hdr) as Hr.
  assert (byte_val hdr = 0) as Hz by lia.
  unfold unpack_parse_header. rewrite !maybe_errx_if. unpackd_norm.
  rewrite Hz. change (seqZ 0 (0 - 1 + 1)) with (@nil Z). cbn [for_each].
  unpackd_norm. rewrite maybe_errx_if. unpackd_norm. done.
Qed.

Lemma parse_header_empty : unpack_parse_header [] = None.
Proof. done. Qed.

(** ** What the header leaves in the descriptor *)

Lemma header_counts_full (hdr : byte) (counts rest : list byte) :
  byte_val hdr = Z.of_nat (length counts) →
  header_counts hdr (counts ++ rest) = byte_val <$> counts.
Proof.
  intros Hn. unfold header_counts. rewrite Hn, Nat2Z.id, fgetc_n_full.
  rewrite <- list_fmap_compose. apply list_fmap_ext. intros _ b _. simpl.
  apply to_uchar_byte_val.
Qed.

Lemma level_offsets_snoc (e : Z) (cs : list Z) (c : Z) :
  level_offsets e (cs ++ [c]) = level_offsets e cs ++ [e + zsum cs].
Proof.
  revert e. induction cs as [|x cs IH]; intros e; simpl.
  - by rewrite Z.add_0_r.
  - rewrite IH. do 3 f_equal. lia.
Qed.

Lemma level_offsets_length (e : Z) (cs : list Z) :
  length (level_offsets e cs) = length cs.
Proof. revert e. induction cs as [|x cs IH]; intros e; simpl; [done|]. by rewrite IH. Qed.

(** C3. When the count table is transmitted in full, header parsing
    returns; in the descriptor it leaves, every level but the last has its
    transmitted count and the last level has its transmitted count plus 2.
    The symbol-table loop ran with the first increment only: the last
    level starts at the sum of the earlier counts and [symbol_eob], the
    end of what the loop stored, lies [count + 1] bytes further. *)
Theorem C3_last_level_count (hdr : byte) (counts : list byte) (c : byte)
    (rest : list byte) :
  byte_val hdr = Z.of_nat (length (counts ++ [c])) →
  ∃ d, unpack_parse_header (hdr :: (counts ++ [c]) ++ rest) = Some d ∧
       symbolsin d = (byte_val <$> counts) ++ [byte_val c + 2] ∧
       aget (tree d) (treelevels d) = Some (zsum (byte_val <$> counts)) ∧
       symbol_eob d = zsum (byte_val <$> counts) + (byte_val c + 1).
Proof.
  intros Hn. pose proof (byte_val_range c) as Hc.
  assert (1 <= byte_val hdr) as Hhdr by (rewrite Hn, length_app; simpl; lia).
  destruct (parse_header_spec hdr ((counts ++ [c]) ++ rest) Hhdr) as (ino & -> & _ & _).
  eexists. split; [done|]. unfold parsed, table_bytes. simpl.
  rewrite (header_counts_full hdr (counts ++ [c]) rest Hn), fmap_app. simpl.
  rewrite !bump_last_snoc, level_offsets_snoc, zsum_app. simpl.
  assert (0 <= zsum (byte_val <$> counts)) as Hs.
  { apply zsum_nonneg, Forall_fmap, Forall_true. intros b. apply byte_val_range. }
  split; [done|]. split; [|lia].
  rewrite Hn, length_app. simpl.
  replace (Z.of_nat (length counts + 1) - 1)
    with (Z.of_nat (length (level_offsets 0 (byte_val <$> counts)))).
  - apply aget_middle.
  - rewrite level_offsets_length, length_fmap. lia.
Qed.

(** C3 at the two-level container [02 01 00 41 42 88]. *)
Lemma C3_last_level_count_witness :
  ∃ d, unpack_parse_header
         (Byte.x02 :: ([Byte.x01] ++ [Byte.x00]) ++ [Byte.x41; Byte.x42; Byte.x88])
       = Some d ∧
       symbolsin d = (byte_val <$> [Byte.x01]) ++ [byte_val Byte.x00 + 2] ∧
       aget (tree d) (treelevels d) = Some (zsum (byte_val <$> [Byte.x01])) ∧
       symbol_eob d = zsum (byte_val <$> [Byte.x01]) + (byte_val Byte.x00 + 1).
Proof.
  apply (C3_last_level_count Byte.x02 [Byte.x01] Byte.x00
           [Byte.x41; Byte.x42; Byte.x88]).
  reflexivity.
Defined.

(** C8, as the code has it.  When the count table and the symbol table are
    transmitted in full, the symbol-table loop takes from the stream one
    byte more than the sum of the transmitted counts: the last level is
    read with its count plus 1.  These bytes are the symbol table, in
    level order; no byte is read for EOB, whose slot [symbol_eob] is the
    first offset past them. *)
Theorem C8_symbol_table_bytes (hdr : byte) (counts syms rest : list byte) :
  1 <= byte_val hdr →
  byte_val hdr = Z.of_nat (length counts) →
  Z.of_nat (length syms) = zsum (byte_val <$> counts) + 1 →
  ∃ d, unpack_parse_header (hdr :: counts ++ syms ++ rest) = Some d ∧
       symbol d = syms ∧ fpIn d = rest ∧
       symbol_eob d = Z.of_nat (length syms) ∧
       symbol_bytes_consumed (hdr :: counts ++ syms ++ rest) d =
         zsum (byte_val <$> counts) + 1.
Proof.
  intros Hhdr Hn Hsyms.
  destruct (parse_header_spec hdr (counts ++ syms ++ rest) Hhdr) as (ino & -> & _ & _).
  eexists. split; [done|]. unfold parsed, table_bytes, symbol_bytes_consumed. simpl.
  rewrite (header_counts_full hdr counts (syms ++ rest) Hn).
  rewrite Hn, Nat2Z.id, drop_app_length.
  replace (Z.to_nat (1 + zsum (byte_val <$> counts))) with (length syms) by lia.
  rewrite fgetc_n_full, drop_app_length, <- list_fmap_compose.
  split; [|split; [done|split; [done|]]].
  - rewrite <- (list_fmap_id syms) at 2. apply list_fmap_ext.
    intros _ b _. simpl. apply to_char_byte_val.
  - rewrite !length_app. unfold PACK_HEADER_LENGTH. lia.
Qed.

(** C8 at the one-level container [01 02 41 42 43 00]. *)
Lemma C8_symbol_table_bytes_witness :
  ∃ d, unpack_parse_header
         (Byte.x01 :: [Byte.x02] ++ [Byte.x41; Byte.x42; Byte.x43] ++ [Byte.x00])
       = Some d ∧
       symbol d = [Byte.x41; Byte.x42; Byte.x43] ∧ fpIn d = [Byte.x00] ∧
       symbol_eob d = Z.of_nat (length [Byte.x41; Byte.x42; Byte.x43]) ∧
       symbol_bytes_consumed
         (Byte.x01 :: [Byte.x02] ++ [Byte.x41; Byte.x42; Byte.x43] ++ [Byte.x00]) d =
         zsum (byte_val <$> [Byte.x02]) + 1.
Proof.
  apply (C8_symbol_table_bytes Byte.x01 [Byte.x02]
           [Byte.x41; Byte.x42; Byte.x43] [Byte.x00]);
    vm_compute; congruence.
Defined.

(** C8 as stated fails: with one level and count byte 2, three bytes are
    taken for the symbol table, not two. *)
Lemma C8_counterexample :
  ∃ d, unpack_parse_header one_level_container = Some d ∧
       symbol_bytes_consumed one_level_container d = 3 ∧
       symbol_bytes_consumed one_level_container d ≠ zsum [byte_val Byte.x02].
Proof. eexists. split; [vm_compute; reflexivity|]. vm_compute. split; congruence. Qed.

(** ** One turn of the bit loop *)

(** The leaf branch: the code is not below the internal-node count. *)
Lemma decode_bit_leaf (thisbyte i : Z) (st : decode_state) (d : unpack_descriptor)
    (ino sin base : Z) :
  let code := Z.lor (Z.shiftl (thiscode st) 1) (Z.land (Z.shiftr thisbyte i) 1) in
  let d' := set_diag (diag d ++ if decide (code - ino > sin)
                               then [msg_file_corrupt] else []) d in
  aget (inodesin d) (thislevel st) = Some ino →
  aget (symbolsin d) (thislevel st) = Some sin →
  aget (tree d) (thislevel st) = Some base →
  ino <= code →
  decode_bit thisbyte i st d =
    if decide (base + (code - ino) = symbol_eob d)
    then Some (Finished (mk_dstate (thislevel st) code (bytes_out st)) d')
    else c ← aget (symbol d) (base + (code - ino));
         Some (Next (mk_dstate 0 0 (bytes_out st + 1)) (set_fpOut (fpOut d ++ [c]) d')).
Proof.
  intros code d' Hino Hsin Hbase Hge. unfold decode_bit. fold code.
  rewrite Hino. cbn [mbind option_bind]. rewrite decide_True by lia.
  rewrite Hsin. cbn [mbind option_bind]. rewrite maybe_errx_if. fold d'.
  change (tree d') with (tree d). rewrite Hbase. cbn [mbind option_bind].
  done.
Qed.

(** The internal branch: the code is below the internal-node count. *)
Lemma decode_bit_descend (thisbyte i : Z) (st : decode_state)
    (d : unpack_descriptor) (ino : Z) :
  let code := Z.lor (Z.shiftl (thiscode st) 1) (Z.land (Z.shiftr thisbyte i) 1) in
  aget (inodesin d) (thislevel st) = Some ino →
  code < ino →
  decode_bit thisbyte i st d =
    Some (Next (mk_dstate (thislevel st + 1) code (bytes_out st))
            (set_diag (diag d ++ if decide (thislevel st + 1 > treelevels d)
                                 then [msg_file_corrupt] else []) d)).
Proof.
  intros code Hino Hlt. unfold decode_bit. fold code.
  rewrite Hino. cbn [mbind option_bind]. rewrite decide_False by lia.
  by rewrite maybe_errx_if.
Qed.

Lemma set_diag_nil_r (d : unpack_descriptor) : set_diag (diag d ++ []) d = d.
Proof. destruct d. unfold set_diag. simpl. by rewrite (right_id [] (++)). Qed.

Lemma bit_cases (thisbyte i : Z) :
  Z.land (Z.shiftr thisbyte i) 1 = 0 ∨ Z.land (Z.shiftr thisbyte i) 1 = 1.
Proof.
  assert (Z.land (Z.shiftr thisbyte i) 1 = Z.shiftr thisbyte i mod 2) as ->.
  { apply (Z.land_ones (Z.shiftr thisbyte i) 1). lia. }
  pose proof (Z.mod_pos_bound (Z.shiftr thisbyte i) 2). lia.
Qed.

(** What a run of turns emits. *)

Lemma decode_bit_emits (thisbyte i : Z) (st : decode_state)
    (d : unpack_descriptor) (r : bit_result) :
  decode_bit thisbyte i st d = Some r →
  fpIn (result_desc r) = fpIn d ∧
  ∃ emitted, emits st d emitted r ∧
             (is_finished r = true → emitted = []).
Proof.
  unfold decode_bit, emits. intros H.
  destruct (aget (inodesin d) (thislevel st)) as [ino|]; simpl in H; [|done].
  case_decide.
  - destruct (aget (symbolsin d) (thislevel st)) as [sin|]; simpl in H; [|done].
    rewrite maybe_errx_if in H.
    destruct (aget (tree _) (thislevel st)) as [base|]; simpl in H; [|done].
    case_decide.
    + injection H as <-. simpl. split; [done|]. exists []. simpl.
      rewrite (right_id [] (++)). split; [split; [done|split; [done|lia]]|done].
    + destruct (aget (symbol _) _) as [c|]; simpl in H; [|done].
      injection H as <-. simpl. split; [done|]. exists [c]. simpl.
      split; [split; [done|split; [done|lia]]|done].
  - rewrite maybe_errx_if in H. injection H as <-. simpl. split; [done|]. exists [].
    simpl. rewrite (right_id [] (++)). split; [split; [done|split; [done|lia]]|done].
Qed.

Lemma emits_trans st d e1 st1 d1 e2 r :
  emits st d e1 (Next st1 d1) → emits st1 d1 e2 r → emits st d (e1 ++ e2) r.
Proof.
  unfold emits. simpl. intros (Ht1 & Ho1 & Hb1) (Ht2 & Ho2 & Hb2).
  rewrite Ht2, Ht1, Ho2, Ho1, Hb2, Hb1, length_app, (assoc (++)).
  split; [done|split; [done|lia]].
Qed.

Lemma decode_bits_emits (thisbyte : Z) (pos : list Z) :
  ∀ st d r, decode_bits thisbyte pos st d = Some r →
    fpIn (result_desc r) = fpIn d ∧ ∃ emitted, emits st d emitted r.
Proof.
  induction pos as [|i pos IH]; intros st d r H; simpl in H.
  - injection H as <-. simpl. split; [done|]. exists []. unfold emits. simpl.
    rewrite (right_id [] (++)). split; [done|split; [done|lia]].
  - destruct (decode_bit thisbyte i st d) as [[st1 d1|st1 d1]|] eqn:Hbit;
      simpl in H; [| |done].
    + apply decode_bit_emits in Hbit as (Hin1 & e1 & He1 & _).
      apply IH in H as (Hin2 & e2 & He2). simpl in Hin1.
      split; [congruence|]. exists (e1 ++ e2). by eapply emits_trans.
    + injection H as <-.
      apply decode_bit_emits in Hbit as (Hin1 & e1 & He1 & _).
      split; [done|]. by exists e1.
Qed.

Lemma decode_loop_emits (input : list byte) :
  ∀ st d r, decode_loop input st d = Some r →
    ∃ emitted, emits st d emitted r.
Proof.
  induction input as [|b rest IH]; intros st d r H; cbn [decode_loop] in H.
  - injection H as <-. exists []. unfold emits. simpl.
    rewrite (right_id [] (++)). split; [done|split; [done|lia]].
  - destruct (decode_bits _ _ _ _) as [[st1 d1|st1 d1]|] eqn:Hbits;
      simpl in H; [| |done].
    + apply decode_bits_emits in Hbits as (_ & e1 & He1).
      apply IH in H as (e2 & He2). exists (e1 ++ e2).
      eapply emits_trans; [|done]. exact He1.
    + injection H as <-. apply decode_bits_emits in Hbits as (_ & e1 & He1).
      exists e1. exact He1.
Qed.

(** ** The decoder stays inside its tables

    For a header byte of at least 1 no table is accessed out of bounds,
    whatever the rest of the input: the level never passes [treelevels]
    and a resolved leaf is the EOB slot or lies inside the symbol table. *)

Lemma code_val (c bit : Z) :
  0 <= c → bit = 0 ∨ bit = 1 → Z.lor (Z.shiftl c 1) bit = 2 * c + bit.
Proof.
  intros Hc [-> | ->].
  - rewrite Z.lor_0_r, Z.shiftl_mul_pow2 by lia. lia.
  - destruct c as [|p|p]; [done|done|lia].
Qed.

Lemma quot2_bounds (a : Z) : 0 <= a → 0 <= a `quot` 2 ∧ 2 * (a `quot` 2) <= a.
Proof.
  intros Ha. rewrite Z.quot_div_nonneg by lia. split.
  - apply Z.div_pos; lia.
  - apply Z.mul_div_le. lia.
Qed.

Lemma aget_Forall (P : Z → Prop) (l : list Z) (i x : Z) :
  Forall P l → aget l i = Some x → P x.
Proof.
  intros Hall [_ Hl]%aget_Some. eapply Forall_lookup_1; done.
Qed.

Lemma level_offsets_lookup (cs : list Z) :
  ∀ (e : Z) (k : nat), (k < length cs)%nat →
    level_offsets e cs !! k = Some (e + zsum (take k cs)).
Proof.
  induction cs as [|c cs IH]; intros e k Hk; simpl in Hk; [lia|].
  destruct k as [|k]; simpl.
  - by rewrite Z.add_0_r.
  - rewrite IH by lia. f_equal. lia.
Qed.

Lemma zsum_take_le (cs : list Z) (k : nat) :
  Forall (λ c, 0 <= c) cs → zsum (take k cs) <= zsum cs.
Proof.
  intros Hnn. rewrite <- (take_drop k cs) at 2. rewrite zsum_app.
  pose proof (zsum_nonneg (drop k cs)) as H.
  assert (Forall (λ c, 0 <= c) (drop k cs)) as Hd by by apply Forall_drop.
  specialize (H Hd). lia.
Qed.

Lemma zsum_take_S (cs : list Z) (k : nat) (c : Z) :
  cs !! k = Some c → zsum (take (S k) cs) = zsum (take k cs) + c.
Proof.
  intros Hk. erewrite take_S_r by done. rewrite zsum_app. simpl. lia.
Qed.

Lemma zsum_drop_S (cs : list Z) (k : nat) (c : Z) :
  cs !! k = Some c → zsum (drop k cs) = c + zsum (drop (S k) cs).
Proof. intros Hk. by erewrite drop_S by done. Qed.

Lemma zsum_le_bound (l : list Z) (b : Z) :
  Forall (λ c, c <= b) l → zsum l <= Z.of_nat (length l) * b.
Proof. induction 1; simpl; lia. Qed.

Section DecoderBounds.

(** A descriptor of the shape that header parsing leaves. *)
Variable d : unpack_descriptor.
Hypothesis Hd : desc_ok d.

(** Every level has a non-negative internal-node count, and twice the
    count of a level is covered by the nodes of the level below. *)
Lemma inodes_values :
  ∀ (n : nat) (L : Z), 0 <= L → treelevels d - L = Z.of_nat n →
    ∃ i s, aget (inodesin d) L = Some i ∧ aget (symbolsin d) L = Some s ∧
           0 <= i ∧ 0 <= s ∧
           (L < treelevels d →
            ∃ i1 s1, aget (inodesin d) (L + 1) = Some i1 ∧
                     aget (symbolsin d) (L + 1) = Some s1 ∧
                     2 * i <= i1 + s1).
Proof.
  destruct Hd as ((Hlv & Hsl & Hil) & (Hlast & Hrec) & Hnn & _).
  induction n as [|n IH]; intros L HL Hn.
  - assert (L = treelevels d) as -> by lia.
    destruct (aget_is_Some (symbolsin d) (treelevels d)) as [s Hs]; [lia|].
    exists 0, s. pose proof (aget_Forall _ _ _ _ Hnn Hs). simpl in *.
    repeat split; try done; lia.
  - destruct (IH (L + 1)) as (i1 & s1 & Hi1 & Hs1 & Hi1nn & Hs1nn & _); [lia|lia|].
    destruct (Hrec L) as (i1' & s1' & Hi1' & Hs1' & Hi); [lia|].
    rewrite Hi1 in Hi1'. rewrite Hs1 in Hs1'.
    injection Hi1' as <-. injection Hs1' as <-.
    destruct (aget_is_Some (symbolsin d) L) as [s Hs]; [lia|].
    pose proof (aget_Forall _ _ _ _ Hnn Hs) as Hsnn. simpl in Hsnn.
    destruct (quot2_bounds (i1 + s1)) as [Hq1 Hq2]; [lia|].
    exists ((i1 + s1) `quot` 2), s. repeat split; try done.
    intros _. by exists i1, s1.
Qed.

(** Where a level starts, and that the level fits before the EOB slot. *)
Lemma level_base (L s : Z) :
  aget (symbolsin d) L = Some s →
  ∃ base, aget (tree d) L = Some base ∧ 0 <= base ∧
          (L = 0 → base = 0) ∧ base + s - 1 <= symbol_eob d.
Proof.
  destruct Hd as (_ & _ & Hnn & _ & Htree & _ & Heob). intros Hs.
  pose proof Hs as [HL Hl]%aget_Some. pose proof (lookup_lt_Some _ _ _ Hl) as Hlt.
  exists (0 + zsum (take (Z.to_nat L) (symbolsin d))). split; [|split; [|split]].
  - apply aget_Some. split; [done|]. rewrite Htree. by apply level_offsets_lookup.
  - pose proof (zsum_nonneg (take (Z.to_nat L) (symbolsin d))) as H.
    assert (Forall (λ c, 0 <= c) (take (Z.to_nat L) (symbolsin d))) as Ht
      by by apply Forall_take.
    specialize (H Ht). lia.
  - intros ->. done.
  - rewrite Heob. pose proof (zsum_take_S _ _ _ Hl) as HS.
    pose proof (zsum_take_le (symbolsin d) (S (Z.to_nat L)) Hnn). lia.
Qed.

Lemma eob_positive : 1 <= symbol_eob d.
Proof.
  destruct Hd as (_ & _ & Hnn & (cs & c & Hcs & Hc) & _ & _ & Heob).
  rewrite Heob, Hcs, zsum_app. simpl.
  rewrite Hcs in Hnn. apply Forall_app in Hnn as [Hnn _].
  pose proof (zsum_nonneg cs Hnn). lia.
Qed.

(** One turn of the bit loop is defined and keeps the invariant. *)
Lemma decode_bit_defined (thisbyte i : Z) (st : decode_state) :
  state_ok d st →
  ∃ r, decode_bit thisbyte i st d = Some r ∧
       tables (result_desc r) = tables d ∧
       (is_finished r = false → state_ok d (result_state r)).
Proof.
  intros Hst.
  pose proof Hd as ((Hlv & Hsl & Hil) & (Hlast & Hrec) & Hnn & _ & _ & Hlen & _).
  assert (0 <= thislevel st <= treelevels d) as Hlevel by (destruct Hst; lia).
  destruct (inodes_values (Z.to_nat (treelevels d - thislevel st)) (thislevel st))
    as (ino & sin & Hino & Hsin & Hinn & Hsnn & _); [lia|lia|].
  destruct (level_base (thislevel st) sin Hsin) as (base & Hbase & Hb0 & Hbz & Hfit).
  pose proof eob_positive as Heob1.
  set (code := Z.lor (Z.shiftl (thiscode st) 1) (Z.land (Z.shiftr thisbyte i) 1)).
  assert (0 <= thiscode st) as Hcode0 by (destruct Hst as [[_ ->]|[_ (ip & _ & ?)]]; lia).
  assert (∃ bit, (bit = 0 ∨ bit = 1) ∧ code = 2 * thiscode st + bit) as (bit & Hbit & Hcode).
  { exists (Z.land (Z.shiftr thisbyte i) 1). split; [apply bit_cases|].
    apply code_val; [done|apply bit_cases]. }
  destruct (decide (code < ino)) as [Hlt|Hge].
  - rewrite (decode_bit_descend thisbyte i st d ino) by done. fold code.
    eexists. split; [done|]. split; [done|]. intros _. right. simpl.
    assert (thislevel st ≠ treelevels d) as Hne.
    { intros Heq. rewrite Heq, Hlast in Hino. injection Hino as <-. lia. }
    split; [lia|]. exists ino. replace (thislevel st + 1 - 1) with (thislevel st) by lia.
    split; [done|lia].
  - rewrite (decode_bit_leaf thisbyte i st d ino sin base) by (done || lia). fold code.
    assert (0 <= base + (code - ino) <= symbol_eob d) as Hsym.
    { destruct Hst as [[Hl0 Hc0]|[Hl1 (ip & Hip & Hc)]].
      - rewrite (Hbz Hl0). lia.
      - destruct (inodes_values (Z.to_nat (treelevels d - (thislevel st - 1)))
                    (thislevel st - 1))
          as (ip' & _ & Hip' & _ & _ & _ & Hcover); [lia|lia|].
        destruct Hcover as (i1 & s1 & Hi1 & Hs1 & Hle); [lia|].
        replace (thislevel st - 1 + 1) with (thislevel st) in * by lia.
        rewrite Hip in Hip'. injection Hip' as <-.
        rewrite Hino in Hi1. injection Hi1 as <-.
        rewrite Hsin in Hs1. injection Hs1 as <-. lia. }
    case_decide as Heq.
    + eexists. split; [done|]. split; [done|]. done.
    + destruct (aget_is_Some (symbol d) (base + (code - ino))) as [c Hc]; [lia|].
      rewrite Hc. cbn [mbind option_bind].
      eexists. split; [done|]. split; [done|]. intros _. by left.
Qed.

(** The level's internal-node count is covered by the leaves below it. *)
Lemma inodes_le_sum :
  ∀ (n : nat) (L i : Z), 0 <= L → treelevels d - L = Z.of_nat n →
    aget (inodesin d) L = Some i →
    i <= zsum (drop (S (Z.to_nat L)) (symbolsin d)).
Proof.
  pose proof Hd as ((Hlv & Hsl & Hil) & (Hlast & Hrec) & Hnn & _).
  induction n as [|n IH]; intros L i HL Hn Hi.
  - assert (L = treelevels d) as -> by lia. rewrite Hlast in Hi. injection Hi as <-.
    apply zsum_nonneg. by apply Forall_drop.
  - destruct (Hrec L) as (i1 & s1 & Hi1 & Hs1 & Hi'); [lia|].
    rewrite Hi in Hi'. injection Hi' as ->.
    specialize (IH (L + 1) i1).
    replace (Z.to_nat (L + 1)) with (S (Z.to_nat L)) in IH by lia.
    pose proof Hs1 as [_ Hl]%aget_Some.
    replace (Z.to_nat (L + 1)) with (S (Z.to_nat L)) in Hl by lia.
    rewrite (zsum_drop_S _ _ _ Hl).
    pose proof (aget_Forall _ _ _ _ Hnn Hs1) as Hs1nn. simpl in Hs1nn.
    destruct (inodes_values n (L + 1)) as (i1' & _ & Hi1' & _ & Hi1nn & _); [lia|lia|].
    rewrite Hi1 in Hi1'. injection Hi1' as <-.
    destruct (quot2_bounds (i1 + s1)); [lia|].
    specialize (IH ltac:(lia) ltac:(lia) Hi1). lia.
Qed.

(** Between two turns of the bit loop the code is below the total leaf
    count, so the next code is below twice that. *)
Lemma thiscode_bound (st : decode_state) :
  state_ok d st → 0 <= thiscode st < zsum (symbolsin d).
Proof.
  intros [[_ ->]|[Hl (ip & Hip & Hc)]].
  - pose proof eob_positive. destruct Hd as (_ & _ & _ & _ & _ & _ & Heob). lia.
  - pose proof (inodes_le_sum (Z.to_nat (treelevels d - (thislevel st - 1)))
                  (thislevel st - 1) ip ltac:(lia) ltac:(lia) Hip) as Hle.
    destruct Hd as (_ & _ & Hnn & _).
    pose proof (zsum_nonneg (take (S (Z.to_nat (thislevel st - 1))) (symbolsin d))) as Ht.
    assert (Forall (λ c, 0 <= c) (take (S (Z.to_nat (thislevel st - 1))) (symbolsin d)))
      as Hf by by apply Forall_take.
    specialize (Ht Hf).
    pose proof (zsum_app (take (S (Z.to_nat (thislevel st - 1))) (symbolsin d))
                  (drop (S (Z.to_nat (thislevel st - 1))) (symbolsin d))) as Happ.
    rewrite take_drop in Happ. lia.
Qed.

End DecoderBounds.

Lemma desc_ok_tables (d d' : unpack_descriptor) :
  tables d' = tables d → desc_ok d → desc_ok d'.
Proof.
  unfold tables, desc_ok, tables_allocated, inodes_from.
  intros Ht. injection Ht as ?.
  repeat match goal with H : _ d' = _ d |- _ => rewrite ?H; clear H end. done.
Qed.

Lemma state_ok_tables (d d' : unpack_descriptor) (st : decode_state) :
  tables d' = tables d → state_ok d st → state_ok d' st.
Proof.
  unfold tables, state_ok. intros Ht. injection Ht as ?.
  repeat match goal with H : _ d' = _ d |- _ => rewrite ?H; clear H end. done.
Qed.

Lemma decode_bits_defined (thisbyte : Z) (pos : list Z) :
  ∀ st d, desc_ok d → state_ok d st →
    ∃ r, decode_bits thisbyte pos st d = Some r ∧
         tables (result_desc r) = tables d ∧
         (is_finished r = false → state_ok d (result_state r)).
Proof.
  induction pos as [|i pos IH]; intros st d Hd Hst; cbn [decode_bits].
  - eexists. split; [done|]. split; [done|]. done.
  - destruct (decode_bit_defined d Hd thisbyte i st Hst) as (r1 & -> & Ht1 & Hst1).
    cbn [mbind option_bind]. destruct r1 as [st1 d1|st1 d1]; simpl in *.
    + destruct (IH st1 d1) as (r & -> & Ht & Hok).
      * by eapply desc_ok_tables.
      * eapply state_ok_tables; [done|]. by apply Hst1.
      * exists r. split; [done|]. split; [congruence|].
        intros Hf. eapply state_ok_tables; [symmetry; exact Ht1|]. by apply Hok.
    + eexists. split; [done|]. split; [done|]. done.
Qed.

Lemma decode_loop_defined (input : list byte) :
  ∀ st d, desc_ok d → state_ok d st →
    ∃ r, decode_loop input st d = Some r.
Proof.
  induction input as [|b rest IH]; intros st d Hd Hst; cbn [decode_loop].
  - by eexists.
  - destruct (decode_bits_defined (byte_val b) bit_positions st (set_fpIn rest d))
      as (r1 & -> & Ht1 & Hst1); [by eapply desc_ok_tables | by eapply state_ok_tables |].
    cbn [mbind option_bind]. destruct r1 as [st1 d1|st1 d1]; simpl in *.
    + apply IH.
      * eapply desc_ok_tables; [|exact Hd]. done.
      * eapply state_ok_tables; [|by apply Hst1]. done.
    + by eexists.
Qed.

Lemma parsed_desc_ok (hdr : byte) (s : list byte) (ino : list Z) :
  1 <= byte_val hdr → length ino = Z.to_nat (byte_val hdr) →
  inodes_from 0 (parsed hdr s ino) → desc_ok (parsed hdr s ino).
Proof.
  intros Hhdr Hino Hinv.
  pose proof (header_counts_nonneg hdr s) as Hnn.
  pose proof (header_counts_length hdr s) as Hlen.
  destruct (snoc_of_length (header_counts hdr s)) as (cs & c & Hcs); [lia|].
  unfold desc_ok, tables_allocated, parsed, table_bytes in *. simpl in *.
  rewrite Hcs in *. rewrite !bump_last_snoc in *.
  apply Forall_app in Hnn as [Hnn1 Hnn2]. rewrite Forall_singleton in Hnn2.
  pose proof (zsum_nonneg cs Hnn1) as Hsum.
  rewrite !length_app in *. simpl in *.
  split; [lia|]. split; [done|]. split.
  { apply Forall_app. split; [done|]. rewrite Forall_singleton. lia. }
  split; [exists cs, (c + 2); split; [done|lia]|].
  split; [by rewrite !level_offsets_snoc|].
  rewrite length_fmap, fgetc_n_length, !zsum_app. simpl. lia.
Qed.

(** A container whose header byte is not 0 is decoded without any access
    outside the tables, whatever follows: [unpack] returns. *)
Theorem unpack_defined (hdr : byte) (s : list byte) :
  1 <= byte_val hdr → ∃ r, unpack (hdr :: s) = Some r.
Proof.
  intros Hhdr. unfold unpack, unpack_decode.
  destruct (parse_header_spec hdr s Hhdr) as (ino & -> & Hino & Hinv).
  cbn [mbind option_bind].
  destruct (decode_loop_defined (fpIn (parsed hdr s ino)) decode_state0 (parsed hdr s ino))
    as (r & ->); [by apply parsed_desc_ok | by left |].
  cbn [mbind option_bind]. by eexists.
Qed.

(** With header byte 0, or on an empty input, the run has no defined
    result. *)
Theorem unpack_undefined (input : list byte) :
  unpack input = None ↔ input = [] ∨ ∃ s, input = Byte.x00 :: s.
Proof.
  split.
  - intros H. destruct input as [|hdr s]; [by left|]. right.
    destruct (decide (1 <= byte_val hdr)) as [Hhdr|Hhdr].
    + destruct (unpack_defined hdr s Hhdr) as (r & Hr). congruence.
    + exists s. f_equal. pose proof (byte_val_range hdr).
      assert (byte_val hdr = byte_val Byte.x00) as Heq by (change (byte_val Byte.x00) with 0; lia).
      rewrite <- (to_char_byte_val hdr), Heq. done.
  - intros [-> | (s & ->)]; [done|]. unfold unpack.
    rewrite parse_header_zero; done.
Qed.

(** The total leaf count is at most 255 * 255 + 2. *)
Lemma parsed_sum_bound (hdr : byte) (s : list byte) (ino : list Z) :
  1 <= byte_val hdr →
  zsum (symbolsin (parsed hdr s ino)) <= 255 * 255 + 2.
Proof.
  intros Hhdr. pose proof (byte_val_range hdr) as Hr.
  pose proof (header_counts_length hdr s) as Hlen.
  destruct (snoc_of_length (header_counts hdr s)) as (cs & c & Hcs); [lia|].
  assert (Forall (λ c, c <= 255) (header_counts hdr s)) as Hle.
  { unfold header_counts. apply Forall_fmap, Forall_true. intros x. simpl.
    unfold to_uchar. pose proof (Z.mod_pos_bound x 256). lia. }
  pose proof (zsum_le_bound _ _ Hle) as Hsum.
  unfold parsed. simpl. rewrite Hcs in *. rewrite bump_last_snoc.
  rewrite zsum_app in *. simpl in *. nia.
Qed.

(** Every header byte above 24 is taken as a tree depth: the hook is the
    first thing recorded, the tables get that many levels, and the run
    returns. *)
Lemma insane_levels_not_rejected (hdr : byte) (s : list byte) :
  HTREE_MAXLEVEL < byte_val hdr →
  ∃ d r, unpack_parse_header (hdr :: s) = Some d ∧
         treelevels d = byte_val hdr - 1 ∧
         head (diag d) = Some msg_insane_levels ∧
         unpack (hdr :: s) = Some r.
Proof.
  unfold HTREE_MAXLEVEL. intros Hhdr.
  destruct (parse_header_spec hdr s) as (ino & Hp & _); [lia|].
  destruct (unpack_defined hdr s) as (r & Hr); [lia|].
  exists (parsed hdr s ino), r. split; [done|]. split; [done|]. split; [|done].
  unfold parsed, header_diag. simpl.
  rewrite decide_True by (unfold HTREE_MAXLEVEL; lia). done.
Qed.

(** ** A single-level tree never resolves EOB *)

Lemma one_level_bit (c : byte) (rest out : list byte) (dg : list string)
    (thisbyte i n : Z) :
  decode_bit thisbyte i (mk_dstate 0 0 n) (one_level_desc c rest out dg) =
  Some (Next (mk_dstate 0 0 (n + 1))
          (one_level_desc c rest (out ++ [one_level_symbol thisbyte i]) dg)).
Proof.
  unfold decode_bit, one_level_symbol.
  destruct (bit_cases thisbyte i) as [-> | ->]; reflexivity.
Qed.

Lemma one_level_bits (c : byte) (rest : list byte) (dg : list string)
    (thisbyte : Z) (pos : list Z) :
  ∀ out n,
    decode_bits thisbyte pos (mk_dstate 0 0 n) (one_level_desc c rest out dg) =
    Some (Next (mk_dstate 0 0 (n + Z.of_nat (length pos)))
            (one_level_desc c rest (out ++ (one_level_symbol thisbyte <$> pos)) dg)).
Proof.
  induction pos as [|i pos IH]; intros out n; cbn [decode_bits].
  - simpl. by rewrite Z.add_0_r, (right_id [] (++)).
  - rewrite one_level_bit. cbn [mbind option_bind]. rewrite IH.
    rewrite <- (assoc (++)). simpl. do 3 f_equal. lia.
Qed.

Lemma one_level_loop (c : byte) (dg : list string) (input : list byte) :
  ∀ rest out n,
    ∃ emitted,
      decode_loop input (mk_dstate 0 0 n) (one_level_desc c rest out dg) =
      Some (Next (mk_dstate 0 0 (n + 8 * Z.of_nat (length input)))
              (one_level_desc c [] (out ++ emitted) dg)) ∧
      Z.of_nat (length emitted) = 8 * Z.of_nat (length input) ∧
      Forall (λ b, b = Byte.x41 ∨ b = Byte.x42) emitted.
Proof.
  induction input as [|b input IH]; intros rest out n; cbn [decode_loop].
  - exists []. rewrite (right_id [] (++)). simpl. rewrite Z.add_0_r. done.
  - change (set_fpIn input (one_level_desc c rest out dg))
      with (one_level_desc c input out dg).
    rewrite one_level_bits. cbn [mbind option_bind].
    destruct (IH input (out ++ (one_level_symbol (byte_val b) <$> bit_positions))
                (n + Z.of_nat (length bit_positions))) as (e & -> & Hlen & Hall).
    exists ((one_level_symbol (byte_val b) <$> bit_positions) ++ e).
    rewrite (assoc (++)). split; [|split].
    + do 3 f_equal. simpl. lia.
    + rewrite length_app, length_fmap. simpl. simpl in Hlen. lia.
    + apply Forall_app. split; [|done]. apply Forall_fmap, Forall_true.
      intros i. simpl. unfold one_level_symbol. case_decide; auto.
Qed.

Lemma one_level_parse (c : byte) (rest : list byte) :
  unpack_parse_header (Byte.x01 :: Byte.x02 :: Byte.x41 :: Byte.x42 :: c :: rest) =
  Some (one_level_desc c rest [] []).
Proof.
  destruct (parse_header_spec Byte.x01 (Byte.x02 :: Byte.x41 :: Byte.x42 :: c :: rest))
    as (ino & -> & Hlen & Hino & _); [done|].
  change (Z.to_nat (byte_val Byte.x01)) with 1%nat in Hlen.
  destruct ino as [|i [|j ino]]; try done.
  unfold parsed, one_level_desc, table_bytes, header_diag, header_counts in *.
  simpl in *. unfold aget in Hino. simpl in Hino. injection Hino as ->.
  pose proof (byte_val_range c) as Hc.
  rewrite !to_char_byte_val, !to_uchar_byte_val, decide_False by (unfold EOF; lia).
  reflexivity.
Qed.

Lemma one_level_unpack (c : byte) (rest : list byte) :
  ∃ r, unpack (Byte.x01 :: Byte.x02 :: Byte.x41 :: Byte.x42 :: c :: rest) = Some r ∧
       returned r = 8 * Z.of_nat (length rest) ∧
       Z.of_nat (length (written r)) = 8 * Z.of_nat (length rest) ∧
       Forall (λ b, b = Byte.x41 ∨ b = Byte.x42) (written r).
Proof.
  unfold unpack. rewrite one_level_parse. cbn [mbind option_bind].
  unfold unpack_decode, decode_state0.
  change (fpIn (one_level_desc c rest [] [])) with rest.
  destruct (one_level_loop c [] rest rest [] 0) as (e & -> & Hlen & Hall).
  cbn [mbind option_bind]. eexists. split; [reflexivity|].
  unfold decode_finished, unpack_descriptor_fini. rewrite maybe_errx_if.
  simpl. done.
Qed.

(** C5, as the code has it.  After the header [01 02] the symbol-table loop
    takes three bytes, so the byte that follows [41 42] becomes the third
    symbol.  The single level then resolves every bit to a leaf, 'A' for 0
    and 'B' for 1, and never to EOB: the decoder writes eight bytes per
    remaining input byte and returns that count, never 2.  With nothing
    after [41 42] it writes nothing and returns 0.  The output 'A' 'B' with
    count 2 is what the two-level container [02 01 00 41 42 88] gives. *)
Theorem C5_container_scenario :
  (∀ (c : byte) (rest : list byte),
     ∃ r, unpack (Byte.x01 :: Byte.x02 :: Byte.x41 :: Byte.x42 :: c :: rest) = Some r ∧
          returned r = 8 * Z.of_nat (length rest) ∧
          Z.of_nat (length (written r)) = 8 * Z.of_nat (length rest) ∧
          Forall (λ b, b = Byte.x41 ∨ b = Byte.x42) (written r)) ∧
  unpack [Byte.x01; Byte.x02; Byte.x41; Byte.x42] =
    Some (mk_run 0 [] [msg_symbol_truncated]) ∧
  unpack two_level_container =
    Some (mk_run 2 [Byte.x41; Byte.x42] [msg_premature_eof]).
Proof.
  split; [exact one_level_unpack|]. split; vm_compute; reflexivity.
Qed.

(** C5 as stated fails: no bitstream after [01 02 41 42] makes the decoder
    write 'A' 'B' and return 2. *)
Lemma C5_counterexample :
  ¬ ∃ (bitstream : list byte) (r : run),
      unpack ([Byte.x01; Byte.x02; Byte.x41; Byte.x42] ++ bitstream) = Some r ∧
      written r = [Byte.x41; Byte.x42] ∧ returned r = 2.
Proof.
  intros (bitstream & r & Hrun & Hout & Hret). destruct bitstream as [|c rest].
  - vm_compute in Hrun. injection Hrun as <-. discriminate Hout.
  - destruct (one_level_unpack c rest) as (r' & Hrun' & Hret' & _).
    simpl in Hrun. rewrite Hrun in Hrun'. injection Hrun' as <-. lia.
Qed.

(** ** An index one past the level *)

(** C9. In the leaf branch the bounds check reaches its hook exactly when
    the index is strictly greater than the level's leaf count.  An index
    equal to the count is accepted: no hook call is recorded and, unless
    that slot is the EOB slot, the byte stored at
    [tree[level] + symbolsin[level]] is written to the output.  Such a
    turn occurs: on the container [02 00 00 41 80] level 0 has no leaf, the
    first bit gives index 0 there, and the decoder writes the first leaf
    of level 1. *)
Theorem C9_index_equal_count_passes :
  (∀ (thisbyte i : Z) (st : decode_state) (d : unpack_descriptor)
     (ino sin base : Z) (c : byte),
     aget (inodesin d) (thislevel st) = Some ino →
     aget (symbolsin d) (thislevel st) = Some sin →
     aget (tree d) (thislevel st) = Some base →
     0 <= sin →
     Z.lor (Z.shiftl (thiscode st) 1) (Z.land (Z.shiftr thisbyte i) 1) - ino = sin →
     base + sin ≠ symbol_eob d →
     aget (symbol d) (base + sin) = Some c →
     decode_bit thisbyte i st d =
       Some (Next (mk_dstate 0 0 (bytes_out st + 1)) (set_fpOut (fpOut d ++ [c]) d))) ∧
  (∀ (thisbyte i : Z) (st : decode_state) (d : unpack_descriptor)
     (ino sin : Z) (r : bit_result),
     aget (inodesin d) (thislevel st) = Some ino →
     aget (symbolsin d) (thislevel st) = Some sin →
     ino <= Z.lor (Z.shiftl (thiscode st) 1) (Z.land (Z.shiftr thisbyte i) 1) →
     decode_bit thisbyte i st d = Some r →
     diag (result_desc r) =
       diag d ++
       if decide (Z.lor (Z.shiftl (thiscode st) 1) (Z.land (Z.shiftr thisbyte i) 1)
                  - ino > sin)
       then [msg_file_corrupt] else []) ∧
  (∃ (d : unpack_descriptor) (sin base : Z) (c : byte),
     unpack_parse_header degenerate_container = Some d ∧
     aget (symbolsin d) 0 = Some sin ∧
     aget (tree d) 0 = Some base ∧
     aget (tree d) 1 = Some (base + sin) ∧
     aget (symbol d) (base + sin) = Some c ∧
     decode_bit (byte_val Byte.x80) 7 decode_state0 d =
       Some (Next (mk_dstate 0 0 1) (set_fpOut [c] d))).
Proof.
  split; [|split].
  - intros thisbyte i st d ino sin base c Hino Hsin Hbase Hnn Hidx Hne Hc.
    rewrite (decode_bit_leaf thisbyte i st d ino sin base) by (done || lia).
    rewrite Hidx, decide_False by done. rewrite decide_False by lia.
    rewrite set_diag_nil_r, Hc. done.
  - intros thisbyte i st d ino sin r Hino Hsin Hge Hr.
    destruct (aget (tree d) (thislevel st)) as [base|] eqn:Hbase.
    + rewrite (decode_bit_leaf thisbyte i st d ino sin base) in Hr by done.
      case_decide; [by injection Hr as <-|].
      destruct (aget (symbol d) _); [|done]. by injection Hr as <-.
    + unfold decode_bit in Hr. rewrite Hino in Hr. cbn [mbind option_bind] in Hr.
      rewrite decide_True in Hr by lia. rewrite Hsin in Hr.
      cbn [mbind option_bind] in Hr. rewrite maybe_errx_if in Hr.
      change (tree (set_diag ?v d)) with (tree d) in Hr. by rewrite Hbase in Hr.
  - eexists _, 0, 0, Byte.x41. split; [vm_compute; reflexivity|].
    vm_compute. done.
Qed.

(** C9 at the descriptor of [02 00 00 41 80], level 0, bit 1. *)
Lemma C9_index_equal_count_passes_witness :
  decode_bit (byte_val Byte.x80) 7 decode_state0
    (mk_unpackd 1 1 [0; 2] [1; 0] [Byte.x41] 1 [0; 0] 0 [] [] []) =
  Some (Next (mk_dstate 0 0 (bytes_out decode_state0 + 1))
          (set_fpOut (fpOut (mk_unpackd 1 1 [0; 2] [1; 0] [Byte.x41] 1 [0; 0] 0 [] [] [])
                      ++ [Byte.x41])
             (mk_unpackd 1 1 [0; 2] [1; 0] [Byte.x41] 1 [0; 0] 0 [] [] []))).
Proof.
  apply (proj1 C9_index_equal_count_passes (byte_val Byte.x80) 7 decode_state0
           (mk_unpackd 1 1 [0; 2] [1; 0] [Byte.x41] 1 [0; 0] 0 [] [] [])
           1 0 0 Byte.x41);
    vm_compute; congruence.
Defined.

(** ** The result of a run *)

Lemma parse_header_inv (input : list byte) (d : unpack_descriptor) :
  unpack_parse_header input = Some d →
  ∃ hdr s ino, input = hdr :: s ∧ 1 <= byte_val hdr ∧ d = parsed hdr s ino.
Proof.
  intros H. destruct input as [|hdr s]; [done|].
  destruct (decide (1 <= byte_val hdr)) as [Hhdr|Hhdr].
  - destruct (parse_header_spec hdr s Hhdr) as (ino & Hp & _).
    rewrite Hp in H. injection H as <-. by exists hdr, s, ino.
  - rewrite parse_header_zero in H by lia. done.
Qed.

(** The code at [finished] stores the count it is given, whatever size the
    comparison found in the descriptor. *)
Lemma decode_finished_result (out expected : Z) (d : unpack_descriptor) :
  uncompressed_size (decode_finished out (set_uncompressed_size expected d)) = out ∧
  fpOut (decode_finished out (set_uncompressed_size expected d)) = fpOut d.
Proof. unfold decode_finished. rewrite maybe_errx_if. done. Qed.

(** C10. On every input on which a run reaches the label [finished]: the
    size the comparison reads there is the 0 stored by header parsing,
    which the decode loop leaves alone; the field is then overwritten with
    the count of emitted bytes, so what [unpack] returns is the number of
    bytes written to the output, and it would be the same, with the same
    output, for any other expected size in the descriptor. *)
Theorem C10_returned_count (input : list byte) (r : run) :
  unpack input = Some r →
  ∃ d res,
    unpack_parse_header input = Some d ∧ uncompressed_size d = 0 ∧
    decode_loop (fpIn d) decode_state0 d = Some res ∧
    uncompressed_size (result_desc res) = 0 ∧
    returned r = bytes_out (result_state res) ∧
    returned r = Z.of_nat (length (written r)) ∧
    ∀ expected,
      let d' := decode_finished (bytes_out (result_state res))
                  (set_uncompressed_size expected (result_desc res)) in
      uncompressed_size d' = returned r ∧ fpOut d' = written r.
Proof.
  unfold unpack, unpack_decode. intros H.
  destruct (unpack_parse_header input) as [d|] eqn:Hparse; [|done].
  cbn [mbind option_bind] in H.
  destruct (decode_loop (fpIn d) decode_state0 d) as [res|] eqn:Hloop; [|done].
  cbn [mbind option_bind] in H. injection H as <-.
  apply parse_header_inv in Hparse as (hdr & s & ino & -> & Hhdr & ->).
  destruct (decode_loop_emits _ _ _ _ Hloop) as (emitted & Htab & Hout & Hcount).
  assert (uncompressed_size (result_desc res) = 0) as Hsize.
  { unfold tables in Htab. by injection Htab as _ _ _ _ _ _ _ ->. }
  exists (parsed hdr s ino), res. unfold unpack_descriptor_fini.
  pose proof (decode_finished_result (bytes_out (result_state res))
                (uncompressed_size (result_desc res)) (result_desc res)) as Hfin.
  assert (set_uncompressed_size (uncompressed_size (result_desc res)) (result_desc res)
          = result_desc res) as Heta by (by destruct (result_desc res)).
  rewrite Heta in Hfin. destruct Hfin as [_ Hwr].
  unfold decode_finished in Hwr. cbn [returned written].
  change (fpOut (set_uncompressed_size ?v ?x)) with (fpOut x) in Hwr.
  rewrite Hwr. simpl in Hout, Hcount.
  split; [done|]. split; [done|]. split; [done|]. split; [done|].
  split; [done|]. split; [rewrite Hout, Hcount; simpl; lia|].
  intros expected. apply decode_finished_result.
Qed.

(** C10 at the two-level container, which returns 2 for 'A' 'B'. *)
Lemma C10_returned_count_witness :
  ∃ d res,
    unpack_parse_header two_level_container = Some d ∧ uncompressed_size d = 0 ∧
    decode_loop (fpIn d) decode_state0 d = Some res ∧
    uncompressed_size (result_desc res) = 0 ∧
    returned (mk_run 2 [Byte.x41; Byte.x42] [msg_premature_eof]) =
      bytes_out (result_state res) ∧
    returned (mk_run 2 [Byte.x41; Byte.x42] [msg_premature_eof]) =
      Z.of_nat (length (written (mk_run 2 [Byte.x41; Byte.x42] [msg_premature_eof]))) ∧
    ∀ expected,
      let d' := decode_finished (bytes_out (result_state res))
                  (set_uncompressed_size expected (result_desc res)) in
      uncompressed_size d' = returned (mk_run 2 [Byte.x41; Byte.x42] [msg_premature_eof]) ∧
      fpOut d' = written (mk_run 2 [Byte.x41; Byte.x42] [msg_premature_eof]).
Proof.
  apply (C10_returned_count two_level_container
           (mk_run 2 [Byte.x41; Byte.x42] [msg_premature_eof])).
  vm_compute. reflexivity.
Defined.

(** ** Runs on which the hooks are reached and nothing stops *)

(** C1 (the code departs from it).  On [03 00 00 01 41 42 80] the first bit
    makes code 1 at level 0, whose internal-node count and leaf count are
    both 0: the index 1 exceeds the leaf count and the "File corrupt" hook
    is reached.  The hook returns: the byte at [tree[0] + 1] is written,
    the decoder starts the next symbol, and the run returns 8. *)
Theorem C1_corrupt_index_not_rejected :
  ∃ d, unpack_parse_header corrupt_index_container = Some d ∧
       symbolsin d = [0; 0; 3] ∧ inodesin d = [0; 1; 0] ∧ tree d = [0; 0; 0] ∧
       decode_bit (byte_val Byte.x80) 7 decode_state0 d =
         Some (Next (mk_dstate 0 0 1)
                 (set_fpOut [Byte.x42] (maybe_errx msg_file_corrupt d))) ∧
       unpack corrupt_index_container =
         Some (mk_run 8 (Byte.x42 :: replicate 7 Byte.x41)
                 [msg_file_corrupt; msg_premature_eof]).
Proof. eexists. split; [vm_compute; reflexivity|]. vm_compute. done. Qed.

(** C4 (the code departs from it).  [exhausted_container] runs out of input
    after eight 'A's with no EOB leaf resolved; [eob_container] resolves EOB
    right after them.  The bit loop tells the two apart, and writes no byte
    for the EOB leaf, but [unpack] does not: both runs return 8 with the
    same output and the same hook calls, and [main] exits with 0. *)
Theorem C4_exhaustion_same_as_eob :
  (∃ d res, unpack_parse_header exhausted_container = Some d ∧
            decode_loop (fpIn d) decode_state0 d = Some res ∧
            is_finished res = false) ∧
  (∃ d res, unpack_parse_header eob_container = Some d ∧
            decode_loop (fpIn d) decode_state0 d = Some res ∧
            is_finished res = true ∧ fpOut (result_desc res) = eight_A) ∧
  unpack exhausted_container = Some (mk_run 8 eight_A [msg_premature_eof]) ∧
  unpack eob_container = Some (mk_run 8 eight_A [msg_premature_eof]) ∧
  main exhausted_container = Some 0.
Proof.
  split; [eexists _, _; split; [vm_compute; reflexivity|]; vm_compute; done|].
  split; [eexists _, _; split; [vm_compute; reflexivity|]; vm_compute; done|].
  vm_compute. done.
Qed.

(** C6 (the code departs from it).  With header byte 25 the "insane levels"
    hook is reached and returns: parsing goes on with 25 levels and the run
    returns 8.  With header byte 0 the hook is reached too, and the next
    statement that touches the tables, [symbolsin[-1]++], is outside them.
    Header bytes 1 and 24 parse, as the claim says. *)
Theorem C6_depth_not_rejected :
  (∃ d, unpack_parse_header depth25_container = Some d ∧
        treelevels d = 24 ∧ length (symbolsin d) = 25%nat ∧
        diag d = [msg_insane_levels]) ∧
  unpack depth25_container =
    Some (mk_run 8 eight_A [msg_insane_levels; msg_premature_eof]) ∧
  main depth25_container = Some 0 ∧
  (∀ s, unpack (Byte.x00 :: s) = None) ∧
  (∃ d, unpack_parse_header depth1_container = Some d ∧ diag d = []) ∧
  (∃ d, unpack_parse_header depth24_container = Some d ∧ diag d = []).
Proof.
  split; [eexists; split; [vm_compute; reflexivity|]; vm_compute; done|].
  split; [vm_compute; done|]. split; [vm_compute; done|].
  split; [intros s; unfold unpack; by rewrite parse_header_zero|].
  split; eexists; (split; [vm_compute; reflexivity|]); vm_compute; done.
Qed.

(** C7 (the code departs from it).  On [truncated_container] the input is
    exhausted in the middle of a code, no EOB leaf resolved: the
    "Premature EOF" hook is reached because 4 differs from 0, it returns,
    [unpack] returns 4 and [main] exits with 0.  On
    [no_bitstream_container] the input is exhausted at once: 0 equals 0, no
    hook is reached at all, and [unpack] returns 0. *)
Theorem C7_exhaustion_returns_count :
  (∃ d res, unpack_parse_header truncated_container = Some d ∧
            decode_loop (fpIn d) decode_state0 d = Some res ∧
            is_finished res = false ∧ fpIn (result_desc res) = []) ∧
  unpack truncated_container =
    Some (mk_run 4 [Byte.x41; Byte.x42; Byte.x42; Byte.x42] [msg_premature_eof]) ∧
  main truncated_container = Some 0 ∧
  unpack no_bitstream_container = Some (mk_run 0 [] []).
Proof.
  split; [eexists _, _; split; [vm_compute; reflexivity|]; vm_compute; done|].
  vm_compute. done.
Qed.

(** * Further properties of the code *)

(** ** What a run is made of *)

(** A run that returns went through header parsing with a header byte of
    at least 1 and through the decode loop; its three results are read off
    the end of that loop. *)
Lemma unpack_inv (input : list byte) (r : run) :
  unpack input = Some r →
  ∃ hdr s ino res,
    input = hdr :: s ∧ 1 <= byte_val hdr ∧
    unpack_parse_header input = Some (parsed hdr s ino) ∧
    desc_ok (parsed hdr s ino) ∧
    decode_loop (fpIn (parsed hdr s ino)) decode_state0 (parsed hdr s ino) = Some res ∧
    returned r = bytes_out (result_state res) ∧
    written r = fpOut (result_desc res) ∧
    reported r =
      diag (result_desc res) ++
      if decide (bytes_out (result_state res) ≠ 0) then [msg_premature_eof] else [].
Proof.
  unfold unpack, unpack_decode. intros H.
  destruct input as [|hdr s]; [done|].
  destruct (decide (1 <= byte_val hdr)) as [Hhdr|Hhdr];
    [|by rewrite parse_header_zero in H by lia].
  destruct (parse_header_spec hdr s Hhdr) as (ino & Hp & Hlen & Hinv).
  rewrite Hp in H. cbn [mbind option_bind] in H.
  destruct (decode_loop _ _ _) as [res|] eqn:Hloop; [|done].
  cbn [mbind option_bind] in H. injection H as <-.
  destruct (decode_loop_emits _ _ _ _ Hloop) as (emitted & Htab & _ & _).
  assert (uncompressed_size (result_desc res) = 0) as Hsize.
  { unfold tables in Htab. by injection Htab as _ _ _ _ _ _ _ ->. }
  pose proof (parsed_desc_ok hdr s ino Hhdr Hlen Hinv) as Hok.
  exists hdr, s, ino, res. unfold unpack_descriptor_fini, decode_finished.
  rewrite maybe_errx_if, Hsize. cbn [returned written reported].
  split; [done|]. split; [done|]. split; [done|]. split; [done|]. done.
Qed.

(** X1. [unpack] touches no table outside its bounds, and returns, exactly
    on the inputs whose first byte is not 0.  On the empty input [hdr[0]]
    is read uninitialised; after a header byte 0 the tables have no cell
    and [symbolsin[-1]++] is outside them. *)
Theorem X1_unpack_in_bounds (input : list byte) :
  (∃ r, unpack input = Some r) ↔ ∃ hdr s, input = hdr :: s ∧ hdr ≠ Byte.x00.
Proof.
  split.
  - intros (r & Hr). destruct (unpack_inv input r Hr) as (hdr & s & _ & _ & -> & Hhdr & _).
    exists hdr, s. split; [done|]. intros ->. by vm_compute in Hhdr.
  - intros (hdr & s & -> & Hne). apply unpack_defined.
    pose proof (byte_val_range hdr) as Hr.
    destruct (decide (byte_val hdr = 0)) as [Hz|Hz]; [|lia].
    destruct Hne. rewrite <- (to_char_byte_val hdr), Hz. done.
Qed.

Lemma parse_header_inv_ok (input : list byte) (d : unpack_descriptor) :
  unpack_parse_header input = Some d →
  ∃ hdr s ino, input = hdr :: s ∧ 1 <= byte_val hdr ∧ d = parsed hdr s ino ∧
               desc_ok d.
Proof.
  intros H. destruct input as [|hdr s]; [done|].
  destruct (decide (1 <= byte_val hdr)) as [Hhdr|Hhdr];
    [|by rewrite parse_header_zero in H by lia].
  destruct (parse_header_spec hdr s Hhdr) as (ino & Hp & Hlen & Hinv).
  rewrite Hp in H. injection H as <-. exists hdr, s, ino.
  split; [done|]. split; [done|]. split; [done|]. by apply parsed_desc_ok.
Qed.

Lemma parsed_symbolsin_length (hdr : byte) (s : list byte) (ino : list Z) :
  1 <= byte_val hdr →
  length (symbolsin (parsed hdr s ino)) = Z.to_nat (byte_val hdr).
Proof.
  intros Hhdr. pose proof (header_counts_length hdr s) as Hlen.
  destruct (snoc_of_length (header_counts hdr s)) as (cs & c & Hcs); [lia|].
  unfold parsed. simpl. rewrite Hcs in *. rewrite bump_last_snoc.
  by rewrite !length_app in *.
Qed.

(** X2. The descriptor that header parsing leaves: the three tables have
    one cell per level; each level starts in the symbol table at the sum
    of the leaf counts of the levels above it; and [symbol_eob] is the
    first offset past the symbol table, which has exactly [symbol_size]
    bytes, one less than the total of the leaf counts. *)
Theorem X2_descriptor_layout (input : list byte) (d : unpack_descriptor) :
  unpack_parse_header input = Some d →
  0 <= treelevels d ∧
  Z.of_nat (length (symbolsin d)) = treelevels d + 1 ∧
  Z.of_nat (length (inodesin d)) = treelevels d + 1 ∧
  Z.of_nat (length (tree d)) = treelevels d + 1 ∧
  (∀ L, 0 <= L <= treelevels d →
     aget (tree d) L = Some (zsum (take (Z.to_nat L) (symbolsin d)))) ∧
  symbol_eob d = Z.of_nat (length (symbol d)) ∧
  symbol_eob d = symbol_size d ∧
  symbol_eob d = zsum (symbolsin d) - 1.
Proof.
  intros (hdr & s & ino & -> & Hhdr & -> & Hok)%parse_header_inv_ok.
  destruct Hok as ((Hlv & Hsl & Hil) & _ & Hnn & _ & Htree & Heob & Hsum).
  split; [done|]. split; [done|]. split; [done|].
  split; [rewrite Htree, level_offsets_length; done|].
  split; [|split; [done|split; [|done]]].
  - intros L HL. apply aget_Some. split; [lia|]. rewrite Htree.
    rewrite level_offsets_lookup by lia. done.
  - rewrite Hsum. pose proof (header_counts_nonneg hdr s) as Hn.
    pose proof (header_counts_length hdr s) as Hl.
    destruct (snoc_of_length (header_counts hdr s)) as (cs & c & Hcs); [lia|].
    unfold parsed. simpl. rewrite Hcs, bump_last_snoc, !zsum_app. simpl. lia.
Qed.

(** X2 at the two-level container [02 01 00 41 42 88]. *)
Lemma X2_descriptor_layout_witness :
  ∃ d, unpack_parse_header two_level_container = Some d ∧
       0 <= treelevels d ∧
       Z.of_nat (length (symbolsin d)) = treelevels d + 1 ∧
       Z.of_nat (length (inodesin d)) = treelevels d + 1 ∧
       Z.of_nat (length (tree d)) = treelevels d + 1 ∧
       (∀ L, 0 <= L <= treelevels d →
          aget (tree d) L = Some (zsum (take (Z.to_nat L) (symbolsin d)))) ∧
       symbol_eob d = Z.of_nat (length (symbol d)) ∧
       symbol_eob d = symbol_size d ∧
       symbol_eob d = zsum (symbolsin d) - 1.
Proof.
  eexists. split; [vm_compute; reflexivity|].
  apply (X2_descriptor_layout two_level_container). vm_compute. reflexivity.
Defined.


(** ** The internal-node table after header parsing *)

(** X3. After header parsing every level has an internal-node count that
    is not negative and not above the number of leaves of the deeper
    levels. *)
Theorem X3_inodes_bounds (input : list byte) (d : unpack_descriptor) :
  unpack_parse_header input = Some d →
  ∀ L, 0 <= L <= treelevels d →
    ∃ i, aget (inodesin d) L = Some i ∧
         0 <= i <= zsum (drop (S (Z.to_nat L)) (symbolsin d)).
Proof.
  intros (hdr & s & ino & -> & Hhdr & -> & Hok)%parse_header_inv_ok L HL.
  set (d := parsed hdr s ino) in *.
  destruct (inodes_values d Hok (Z.to_nat (treelevels d - L)) L)
    as (i & _ & Hi & _ & Hnn & _); [lia|lia|].
  exists i. split; [done|]. split; [done|].
  apply (inodes_le_sum d Hok (Z.to_nat (treelevels d - L)) L i); [lia|lia|done].
Qed.

(** X3 at the two-level container, whose level 0 has one internal node. *)
Lemma X3_inodes_bounds_witness :
  ∃ d, unpack_parse_header two_level_container = Some d ∧
       ∀ L, 0 <= L <= treelevels d →
         ∃ i, aget (inodesin d) L = Some i ∧
              0 <= i <= zsum (drop (S (Z.to_nat L)) (symbolsin d)).
Proof.
  eexists. split; [vm_compute; reflexivity|].
  apply (X3_inodes_bounds two_level_container). vm_compute. reflexivity.
Defined.

(** ** The checks of the header *)

Lemma fgetc_n_take (n : nat) :
  ∀ s, fgetc_n n s = (byte_val <$> take n s) ++ replicate (n - length s) EOF.
Proof.
  induction n as [|n IH]; intros s; [done|].
  destruct s as [|b s]; cbn [fgetc_n fgetc fst snd]; rewrite IH.
  - rewrite !take_nil. cbn [length]. rewrite !Nat.sub_0_r. done.
  - done.
Qed.

Lemma eof_msgs_replicate (msg : string) (n : nat) :
  ∀ s, eof_msgs msg n s = replicate (n - length s) msg.
Proof.
  induction n as [|n IH]; intros s; [done|].
  destruct s as [|b s]; cbn [eof_msgs fgetc fst snd]; rewrite IH.
  - cbn [length]. rewrite !Nat.sub_0_r. by rewrite decide_True.
  - pose proof (byte_val_range b). unfold EOF. by rewrite decide_False by lia.
Qed.

Lemma elem_of_replicate_iff (msg m : string) (n : nat) :
  m ∈ replicate n msg ↔ m = msg ∧ (0 < n)%nat.
Proof. rewrite elem_of_replicate. split; intros [? ?]; split; (done || lia). Qed.

(** X4. Every check of the header reaches its hook exactly under its
    condition, and none of them stops parsing: "insane levels" for a header
    byte above 24, "truncated" when the input ends inside the count table,
    "Bad symbol table" when one more than the sum of the counts exceeds
    256, "Symbol table truncated" when the input ends inside the symbol
    table. *)
Theorem X4_header_checks (hdr : byte) (s : list byte) :
  1 <= byte_val hdr →
  ∃ d, unpack_parse_header (hdr :: s) = Some d ∧
       (msg_insane_levels ∈ diag d ↔ HTREE_MAXLEVEL < byte_val hdr) ∧
       (msg_truncated ∈ diag d ↔ Z.of_nat (length s) < byte_val hdr) ∧
       (msg_bad_symbol_table ∈ diag d ↔ 256 < symbol_size d) ∧
       (msg_symbol_truncated ∈ diag d ↔
          Z.of_nat (length s) < byte_val hdr + symbol_size d).
Proof.
  intros Hhdr. destruct (parse_header_spec hdr s Hhdr) as (ino & -> & _ & _).
  eexists. split; [done|].
  pose proof (zsum_nonneg _ (header_counts_nonneg hdr s)) as Hsum.
  unfold parsed, header_diag, table_bytes, HTREE_MAXLEVEL.
  cbn [diag symbol_size]. rewrite !eof_msgs_replicate, length_drop.
  set (n := byte_val hdr) in *. set (t := zsum (header_counts hdr s)) in *.
  rewrite !elem_of_app, !elem_of_replicate_iff.
  repeat split.
  - intros [H|[[H _]|[H|[H _]]]]; try done.
    + case_decide; [lia|]. by apply elem_of_nil in H.
    + case_decide; [|by apply elem_of_nil in H].
      by apply list_elem_of_singleton in H.
  - intros H. left. rewrite decide_True by lia. by apply list_elem_of_singleton.
  - intros [H|[[_ H]|[H|[H _]]]]; try done; try lia.
    + case_decide; [|by apply elem_of_nil in H].
      by apply list_elem_of_singleton in H.
    + case_decide; [|by apply elem_of_nil in H].
      by apply list_elem_of_singleton in H.
  - intros H. right. left. split; [done|lia].
  - intros [H|[[H _]|[H|[H _]]]]; try done.
    + case_decide; [|by apply elem_of_nil in H].
      by apply list_elem_of_singleton in H.
    + case_decide; [lia|]. by apply elem_of_nil in H.
  - intros H. right. right. left. rewrite decide_True by lia.
    by apply list_elem_of_singleton.
  - intros [H|[[H _]|[H|[_ H]]]]; try done; try lia.
    + case_decide; [|by apply elem_of_nil in H].
      by apply list_elem_of_singleton in H.
    + case_decide; [|by apply elem_of_nil in H].
      by apply list_elem_of_singleton in H.
  - intros H. right. right. right. split; [done|lia].
Qed.

(** X4 at header byte 25 followed by two bytes only. *)
Lemma X4_header_checks_witness :
  ∃ d, unpack_parse_header (Byte.x19 :: [Byte.x00; Byte.x01]) = Some d ∧
       (msg_insane_levels ∈ diag d ↔ HTREE_MAXLEVEL < byte_val Byte.x19) ∧
       (msg_truncated ∈ diag d ↔
          Z.of_nat (length [Byte.x00; Byte.x01]) < byte_val Byte.x19) ∧
       (msg_bad_symbol_table ∈ diag d ↔ 256 < symbol_size d) ∧
       (msg_symbol_truncated ∈ diag d ↔
          Z.of_nat (length [Byte.x00; Byte.x01]) < byte_val Byte.x19 + symbol_size d).
Proof.
  apply (X4_header_checks Byte.x19 [Byte.x00; Byte.x01]). vm_compute. congruence.
Defined.


(** ** Input that ends inside the header *)

(** X5. What header parsing stores, as a function of the input: the count
    of a level is its byte of the count table, or 255 when the input has
    ended (the [EOF] of [fgetc] cast to [unsigned char]), the last count
    being raised by 2; the symbol table holds the bytes that follow, and
    0xFF for each byte that is missing; the bitstream is what is left. *)
Theorem X5_header_of_input (hdr : byte) (s : list byte) :
  1 <= byte_val hdr →
  let n := Z.to_nat (byte_val hdr) in
  ∃ d, unpack_parse_header (hdr :: s) = Some d ∧
       symbolsin d =
         bump_last 2 ((byte_val <$> take n s) ++ replicate (n - length s) 255) ∧
       symbol d =
         take (Z.to_nat (symbol_size d)) (drop n s) ++
         replicate (Z.to_nat (symbol_size d) - length (drop n s)) Byte.xff ∧
       fpIn d = drop (Z.to_nat (symbol_size d)) (drop n s).
Proof.
  intros Hhdr n. destruct (parse_header_spec hdr s Hhdr) as (ino & -> & _ & _).
  eexists. split; [done|].
  unfold parsed, table_bytes, header_counts. cbn [symbolsin symbol fpIn symbol_size].
  fold n. rewrite !fgetc_n_take, !fmap_app, !fmap_replicate, <- !list_fmap_compose.
  split; [|split; [|done]].
  - f_equal. f_equal. apply list_fmap_ext. intros _ b _. apply to_uchar_byte_val.
  - f_equal. rewrite <- (list_fmap_id (take _ (drop n s))) at 2.
    apply list_fmap_ext. intros _ b _. apply to_char_byte_val.
Qed.

(** X5 at [02 07]: two levels announced, one count byte present. *)
Lemma X5_header_of_input_witness :
  let n := Z.to_nat (byte_val Byte.x02) in
  ∃ d, unpack_parse_header (Byte.x02 :: [Byte.x07]) = Some d ∧
       symbolsin d =
         bump_last 2 ((byte_val <$> take n [Byte.x07]) ++
                      replicate (n - length [Byte.x07]) 255) ∧
       symbol d =
         take (Z.to_nat (symbol_size d)) (drop n [Byte.x07]) ++
         replicate (Z.to_nat (symbol_size d) - length (drop n [Byte.x07])) Byte.xff ∧
       fpIn d = drop (Z.to_nat (symbol_size d)) (drop n [Byte.x07]).
Proof.
  apply (X5_header_of_input Byte.x02 [Byte.x07]). vm_compute. congruence.
Defined.


(** ** When "File corrupt" can be reached *)

Section QuietDecoder.

(** A descriptor of the shape that header parsing leaves, whose level 0
    has a leaf or an internal node. *)
Variable d : unpack_descriptor.
Hypothesis Hd : desc_ok d.
Hypothesis Hroot :
  ¬ (aget (inodesin d) 0 = Some 0 ∧ aget (symbolsin d) 0 = Some 0).

Lemma decode_bit_quiet (thisbyte i : Z) (st : decode_state) (r : bit_result) :
  state_ok d st → decode_bit thisbyte i st d = Some r →
  diag (result_desc r) = diag d.
Proof.
  intros Hst Hr.
  pose proof Hd as ((Hlv & Hsl & Hil) & (Hlast & Hrec) & Hnn & _).
  assert (0 <= thislevel st <= treelevels d) as Hlevel by (destruct Hst; lia).
  destruct (inodes_values d Hd (Z.to_nat (treelevels d - thislevel st)) (thislevel st))
    as (ino & sin & Hino & Hsin & Hinn & Hsnn & _); [lia|lia|].
  destruct (level_base d Hd (thislevel st) sin Hsin) as (base & Hbase & _).
  set (code := Z.lor (Z.shiftl (thiscode st) 1) (Z.land (Z.shiftr thisbyte i) 1)).
  assert (0 <= thiscode st) as Hcode0 by (destruct Hst as [[_ ->]|[_ (ip & _ & ?)]]; lia).
  assert (∃ bit, (bit = 0 ∨ bit = 1) ∧ code = 2 * thiscode st + bit) as (bit & Hbit & Hcode).
  { exists (Z.land (Z.shiftr thisbyte i) 1). split; [apply bit_cases|].
    apply code_val; [done|apply bit_cases]. }
  destruct (decide (code < ino)) as [Hlt|Hge].
  - rewrite (decode_bit_descend thisbyte i st d ino) in Hr by done. fold code in Hr.
    assert (thislevel st ≠ treelevels d) as Hne.
    { intros Heq. rewrite Heq, Hlast in Hino. injection Hino as <-. lia. }
    rewrite decide_False in Hr by lia. injection Hr as <-. simpl.
    by rewrite (right_id [] (++)).
  - rewrite (decode_bit_leaf thisbyte i st d ino sin base) in Hr by (done || lia).
    fold code in Hr.
    assert (code - ino <= sin) as Hidx.
    { destruct Hst as [[Hl0 Hc0]|[Hl1 (ip & Hip & Hc)]].
      - rewrite Hl0 in Hino, Hsin.
        destruct (decide (ino = 0 ∧ sin = 0)) as [[-> ->]|Hn]; [by destruct Hroot|].
        lia.
      - destruct (inodes_values d Hd (Z.to_nat (treelevels d - (thislevel st - 1)))
                    (thislevel st - 1))
          as (ip' & _ & Hip' & _ & _ & _ & Hcover); [lia|lia|].
        destruct Hcover as (i1 & s1 & Hi1 & Hs1 & Hle); [lia|].
        replace (thislevel st - 1 + 1) with (thislevel st) in * by lia.
        rewrite Hip in Hip'. injection Hip' as <-.
        rewrite Hino in Hi1. injection Hi1 as <-.
        rewrite Hsin in Hs1. injection Hs1 as <-. lia. }
    rewrite (decide_False (P := code - ino > sin)) in Hr by lia.
    rewrite set_diag_nil_r in Hr. case_decide; [by injection Hr as <-|].
    destruct (aget (symbol d) _); [|done]. by injection Hr as <-.
Qed.

End QuietDecoder.

Lemma decode_bits_quiet (thisbyte : Z) (pos : list Z) :
  ∀ st d r,
    desc_ok d → state_ok d st →
    ¬ (aget (inodesin d) 0 = Some 0 ∧ aget (symbolsin d) 0 = Some 0) →
    decode_bits thisbyte pos st d = Some r →
    diag (result_desc r) = diag d.
Proof.
  induction pos as [|i pos IH]; intros st d r Hd Hst Hroot Hr; cbn [decode_bits] in Hr.
  - by injection Hr as <-.
  - destruct (decode_bit_defined d Hd thisbyte i st Hst) as (r1 & Hr1 & Ht1 & Hst1).
    pose proof (decode_bit_quiet d Hd Hroot thisbyte i st r1 Hst Hr1) as Hq.
    rewrite Hr1 in Hr. cbn [mbind option_bind] in Hr.
    destruct r1 as [st1 d1|st1 d1]; simpl in *; [|by injection Hr as <-].
    rewrite <- Hq. apply (IH st1 d1 r); [by eapply desc_ok_tables| |
      |done].
    + eapply state_ok_tables; [done|]. by apply Hst1.
    + unfold tables in Ht1. injection Ht1 as _ _ Hs Hi _ _ _ _. by rewrite Hs, Hi.
Qed.

Lemma decode_loop_quiet (input : list byte) :
  ∀ st d r,
    desc_ok d → state_ok d st →
    ¬ (aget (inodesin d) 0 = Some 0 ∧ aget (symbolsin d) 0 = Some 0) →
    decode_loop input st d = Some r →
    diag (result_desc r) = diag d.
Proof.
  induction input as [|b rest IH]; intros st d r Hd Hst Hroot Hr; cbn [decode_loop] in Hr.
  - by injection Hr as <-.
  - assert (desc_ok (set_fpIn rest d)) as Hd' by by eapply desc_ok_tables.
    assert (state_ok (set_fpIn rest d) st) as Hst' by by eapply state_ok_tables.
    destruct (decode_bits_defined (byte_val b) bit_positions st (set_fpIn rest d) Hd' Hst')
      as (r1 & Hr1 & Ht1 & Hst1).
    pose proof (decode_bits_quiet (byte_val b) bit_positions st (set_fpIn rest d) r1
                  Hd' Hst' Hroot Hr1) as Hq.
    rewrite Hr1 in Hr. cbn [mbind option_bind] in Hr.
    destruct r1 as [st1 d1|st1 d1]; simpl in *; [|by injection Hr as <-].
    rewrite <- Hq. apply (IH st1 d1 r); [by eapply desc_ok_tables| | |done].
    + eapply state_ok_tables; [done|]. by apply Hst1.
    + unfold tables in Ht1. injection Ht1 as _ _ Hs Hi _ _ _ _. by rewrite Hs, Hi.
Qed.

Lemma header_diag_elems (hdr : byte) (s : list byte) (m : string) :
  m ∈ header_diag hdr s →
  m ∈ [msg_insane_levels; msg_truncated; msg_bad_symbol_table; msg_symbol_truncated].
Proof.
  unfold header_diag. rewrite !eof_msgs_replicate, !elem_of_app, !elem_of_replicate_iff.
  intros [H|[[-> _]|[H|[-> _]]]].
  - case_decide; [|by apply elem_of_nil in H].
    apply list_elem_of_singleton in H as ->.
    apply list_elem_of_In. simpl. auto.
  - apply list_elem_of_In. simpl. auto.
  - case_decide; [|by apply elem_of_nil in H].
    apply list_elem_of_singleton in H as ->.
    apply list_elem_of_In. simpl. auto.
  - apply list_elem_of_In. simpl. auto.
Qed.

(** X6. A run reports "File corrupt" only when level 0 of the tree has
    neither a leaf nor an internal node.  On every other container neither
    corruption check of the bit loop is ever reached: the level stays
    within the tree and the index of a resolved leaf within its level. *)
Theorem X6_file_corrupt_only_at_root (input : list byte) (r : run) :
  unpack input = Some r → msg_file_corrupt ∈ reported r →
  ∃ d, unpack_parse_header input = Some d ∧
       aget (inodesin d) 0 = Some 0 ∧ aget (symbolsin d) 0 = Some 0.
Proof.
  intros Hr Hin.
  destruct (unpack_inv input r Hr)
    as (hdr & s & ino & res & -> & Hhdr & Hp & Hok & Hloop & _ & _ & Hrep).
  exists (parsed hdr s ino). split; [done|].
  destruct (decide (aget (inodesin (parsed hdr s ino)) 0 = Some 0 ∧
                    aget (symbolsin (parsed hdr s ino)) 0 = Some 0)) as [H|Hroot]; [done|].
  exfalso.
  assert (state_ok (parsed hdr s ino) decode_state0) as Hst0 by by left.
  rewrite (decode_loop_quiet _ _ _ _ Hok Hst0 Hroot Hloop) in Hrep.
  rewrite Hrep in Hin. apply elem_of_app in Hin as [Hin|Hin].
  - apply header_diag_elems, list_elem_of_In in Hin. simpl in Hin.
    by destruct Hin as [H|[H|[H|[H|[]]]]].
  - case_decide; [|by apply elem_of_nil in Hin].
    by apply list_elem_of_singleton in Hin.
Qed.

(** X6 at [corrupt_index_container], whose levels 0 and 1 have no leaf. *)
Lemma X6_file_corrupt_only_at_root_witness :
  ∃ d, unpack_parse_header corrupt_index_container = Some d ∧
       aget (inodesin d) 0 = Some 0 ∧ aget (symbolsin d) 0 = Some 0.
Proof.
  apply (X6_file_corrupt_only_at_root corrupt_index_container
           (mk_run 8 (Byte.x42 :: replicate 7 Byte.x41)
              [msg_file_corrupt; msg_premature_eof])).
  - vm_compute. reflexivity.
  - apply list_elem_of_In. simpl. left. reflexivity.
Defined.


(** ** What the output can be *)

Lemma decode_bit_output (thisbyte i : Z) (st : decode_state)
    (d : unpack_descriptor) (r : bit_result) :
  decode_bit thisbyte i st d = Some r →
  ∃ emitted, emits st d emitted r ∧ (length emitted <= 1)%nat ∧
             Forall (λ c, c ∈ symbol d) emitted.
Proof.
  unfold decode_bit, emits. intros H.
  destruct (aget (inodesin d) (thislevel st)) as [ino|]; simpl in H; [|done].
  case_decide.
  - destruct (aget (symbolsin d) (thislevel st)) as [sin|]; simpl in H; [|done].
    rewrite maybe_errx_if in H.
    destruct (aget (tree _) (thislevel st)) as [base|]; simpl in H; [|done].
    case_decide.
    + injection H as <-. exists []. simpl. rewrite (right_id [] (++)).
      repeat split; (done || lia).
    + destruct (aget (symbol _) _) as [c|] eqn:Hc; simpl in H; [|done].
      injection H as <-. exists [c]. simpl.
      repeat split; try (done || lia). apply Forall_singleton.
      apply aget_Some in Hc as [_ Hc]. by eapply list_elem_of_lookup_2.
  - rewrite maybe_errx_if in H. injection H as <-. exists []. simpl.
    rewrite (right_id [] (++)). repeat split; (done || lia).
Qed.

Lemma tables_symbol (d d' : unpack_descriptor) :
  tables d' = tables d → symbol d' = symbol d.
Proof. unfold tables. intros H. by injection H. Qed.

Lemma decode_bits_output (thisbyte : Z) (pos : list Z) :
  ∀ st d r, decode_bits thisbyte pos st d = Some r →
    ∃ emitted, emits st d emitted r ∧ (length emitted <= length pos)%nat ∧
               Forall (λ c, c ∈ symbol d) emitted.
Proof.
  induction pos as [|i pos IH]; intros st d r H; cbn [decode_bits] in H.
  - injection H as <-. exists []. unfold emits. simpl. rewrite (right_id [] (++)).
    repeat split; (done || lia).
  - destruct (decode_bit thisbyte i st d) as [[st1 d1|st1 d1]|] eqn:Hbit;
      simpl in H; [| |done].
    + apply decode_bit_output in Hbit as (e1 & He1 & Hl1 & Hs1).
      apply IH in H as (e2 & He2 & Hl2 & Hs2).
      exists (e1 ++ e2). split; [by eapply emits_trans|].
      split; [rewrite length_app; simpl; lia|].
      apply Forall_app. split; [done|].
      pose proof (tables_symbol _ _ (proj1 He1)) as Hs. simpl in Hs.
      by rewrite Hs in Hs2.
    + injection H as <-. apply decode_bit_output in Hbit as (e1 & He1 & Hl1 & Hs1).
      exists e1. split; [done|]. split; [simpl; lia|done].
Qed.

Lemma decode_loop_output (input : list byte) :
  ∀ st d r, decode_loop input st d = Some r →
    ∃ emitted, emits st d emitted r ∧ (length emitted <= 8 * length input)%nat ∧
               Forall (λ c, c ∈ symbol d) emitted.
Proof.
  induction input as [|b rest IH]; intros st d r H; cbn [decode_loop] in H.
  - injection H as <-. exists []. unfold emits. simpl. rewrite (right_id [] (++)).
    repeat split; (done || lia).
  - destruct (decode_bits _ _ _ _) as [[st1 d1|st1 d1]|] eqn:Hbits;
      simpl in H; [| |done].
    + apply decode_bits_output in Hbits as (e1 & He1 & Hl1 & Hs1).
      apply IH in H as (e2 & He2 & Hl2 & Hs2).
      exists (e1 ++ e2). split; [eapply emits_trans; [exact He1|done]|].
      split; [rewrite length_app; simpl in *; lia|].
      apply Forall_app. split; [done|].
      pose proof (tables_symbol _ _ (proj1 He1)) as Hs. simpl in Hs.
      by rewrite Hs in Hs2.
    + injection H as <-. apply decode_bits_output in Hbits as (e1 & He1 & Hl1 & Hs1).
      exists e1. split; [exact He1|]. split; [simpl in *; lia|done].
Qed.

(** X7. A run writes at most eight bytes for each byte of the bitstream,
    so the value it returns is at most eight times the length of the
    bitstream, and every byte it writes is a byte of the symbol table. *)
Theorem X7_output_bound (input : list byte) (r : run) :
  unpack input = Some r →
  ∃ d, unpack_parse_header input = Some d ∧
       0 <= returned r <= 8 * Z.of_nat (length (fpIn d)) ∧
       (length (written r) <= 8 * length (fpIn d))%nat ∧
       Forall (λ c, c ∈ symbol d) (written r).
Proof.
  intros Hr.
  destruct (unpack_inv input r Hr)
    as (hdr & s & ino & res & -> & Hhdr & Hp & Hok & Hloop & Hret & Hwr & _).
  exists (parsed hdr s ino). split; [done|].
  destruct (decode_loop_output _ _ _ _ Hloop) as (e & (_ & Hout & Hcnt) & Hlen & Hsym).
  rewrite Hret, Hwr, Hout, Hcnt.
  change (bytes_out decode_state0) with 0.
  change (fpOut (parsed hdr s ino) ++ e) with e.
  split; [lia|]. split; done.
Qed.

(** X7 at the two-level container, which writes 'A' 'B' for one byte. *)
Lemma X7_output_bound_witness :
  ∃ d, unpack_parse_header two_level_container = Some d ∧
       0 <= returned (mk_run 2 [Byte.x41; Byte.x42] [msg_premature_eof])
         <= 8 * Z.of_nat (length (fpIn d)) ∧
       (length (written (mk_run 2 [Byte.x41; Byte.x42] [msg_premature_eof]))
          <= 8 * length (fpIn d))%nat ∧
       Forall (λ c, c ∈ symbol d)
         (written (mk_run 2 [Byte.x41; Byte.x42] [msg_premature_eof])).
Proof.
  apply (X7_output_bound two_level_container
           (mk_run 2 [Byte.x41; Byte.x42] [msg_premature_eof])).
  vm_compute. reflexivity.
Defined.


(** ** What main makes of a run *)

Lemma unpack_returned (input : list byte) (r : run) :
  unpack input = Some r → returned r = Z.of_nat (length (written r)).
Proof.
  intros Hr.
  destruct (unpack_inv input r Hr)
    as (hdr & s & ino & res & _ & _ & _ & _ & Hloop & Hret & Hwr & _).
  destruct (decode_loop_emits _ _ _ _ Hloop) as (e & _ & Hout & Hcnt).
  rewrite Hret, Hwr, Hout, Hcnt.
  change (bytes_out decode_state0) with 0.
  change (fpOut (parsed hdr s ino) ++ e) with e. lia.
Qed.

(** X8. [main] exits with 0, after the message of success, exactly when
    the run wrote at least one byte, and with 1, after "FAILED", exactly
    when it wrote none, whichever way the decode loop ended: a container
    whose first code is EOB is reported as failed, and a container that
    ends without EOB as decompressed. *)
Theorem X8_main_verdict (input : list byte) :
  (main input = Some 0 ↔ ∃ r, unpack input = Some r ∧ written r ≠ []) ∧
  (main input = Some 1 ↔ ∃ r, unpack input = Some r ∧ written r = []).
Proof.
  unfold main. destruct (unpack input) as [r|] eqn:Hr; cbn [mbind option_bind].
  - pose proof (unpack_returned input r Hr) as Hret.
    assert (written r = [] ↔ returned r = 0) as Hnil.
    { rewrite Hret. destruct (written r); simpl; split; (done || lia). }
    case_decide as Hpos; split; split.
    + intros _. exists r. split; [done|]. rewrite Hnil. lia.
    + done.
    + done.
    + intros (r' & Hr' & Hw). injection Hr' as <-. apply Hnil in Hw. lia.
    + done.
    + intros (r' & Hr' & Hw). injection Hr' as <-. rewrite Hnil in Hw.
      pose proof (Zle_0_nat (length (written r))). lia.
    + intros _. exists r. split; [done|]. rewrite Hnil.
      pose proof (Zle_0_nat (length (written r))). lia.
    + done.
  - split; split; try done; by intros (r & Hr' & _).
Qed.


(** ** Input after the code of EOB *)

(** The bit loop never looks at the input stream of the descriptor. *)
Lemma decode_bit_fpIn (x : list byte) (thisbyte i : Z) (st : decode_state)
    (d : unpack_descriptor) :
  decode_bit thisbyte i st (set_fpIn x d) =
  with_fpIn x <$> decode_bit thisbyte i st d.
Proof.
  destruct d as [ss tl sin ino sy eob tr us s out dg].
  unfold decode_bit, maybe_errx, set_diag, set_fpIn, set_fpOut.
  cbn [symbol_size treelevels symbolsin inodesin symbol symbol_eob tree
       uncompressed_size fpIn fpOut diag].
  destruct (aget ino (thislevel st)) as [i0|]; [|reflexivity].
  cbn [mbind option_bind]. case_decide.
  - destruct (aget sin (thislevel st)) as [s0|]; [|reflexivity].
    cbn [mbind option_bind].
    case_decide;
      cbn [symbol_size treelevels symbolsin inodesin symbol symbol_eob tree
           uncompressed_size fpIn fpOut diag];
      (destruct (aget tr (thislevel st)) as [base|]; [|reflexivity]);
      cbn [mbind option_bind]; (case_decide; [reflexivity|]);
      destruct (aget sy _); reflexivity.
  - case_decide; reflexivity.
Qed.

Lemma decode_bits_fpIn (x : list byte) (thisbyte : Z) (pos : list Z) :
  ∀ st d, decode_bits thisbyte pos st (set_fpIn x d) =
          with_fpIn x <$> decode_bits thisbyte pos st d.
Proof.
  induction pos as [|i pos IH]; intros st d; cbn [decode_bits]; [done|].
  rewrite decode_bit_fpIn.
  destruct (decode_bit thisbyte i st d) as [[st1 d1|st1 d1]|]; [|done|done].
  cbn [fmap option_fmap option_map mbind option_bind with_fpIn]. apply IH.
Qed.

(** The decode loop sets the stream itself before it uses the descriptor. *)
Lemma decode_loop_fpIn (x : list byte) (input : list byte) (st : decode_state)
    (d : unpack_descriptor) :
  decode_loop input st (set_fpIn x d) = decode_loop input st d.
Proof. by destruct input. Qed.

(** Once the loop has stopped at EOB, more input changes nothing but what
    is left in the stream. *)
Lemma decode_loop_app_finished (extra : list byte) (input : list byte) :
  ∀ st d st' d',
    decode_loop input st d = Some (Finished st' d') →
    decode_loop (input ++ extra) st d =
      Some (Finished st' (set_fpIn (fpIn d' ++ extra) d')).
Proof.
  induction input as [|b rest IH]; intros st d st' d' H; [done|].
  cbn [decode_loop app] in *. rewrite decode_bits_fpIn in *.
  destruct (decode_bits (byte_val b) bit_positions st d) as [[st1 d1|st1 d1]|];
    [| |done]; cbn [fmap option_fmap option_map mbind option_bind with_fpIn] in *.
  - rewrite decode_loop_fpIn in *. by apply IH.
  - by injection H as <- <-.
Qed.

(** The internal-node table is determined by the leaf counts. *)
Lemma inodes_from_unique (d1 d2 : unpack_descriptor) :
  treelevels d1 = treelevels d2 → symbolsin d1 = symbolsin d2 →
  tables_allocated d1 → tables_allocated d2 →
  inodes_from 0 d1 → inodes_from 0 d2 →
  inodesin d1 = inodesin d2.
Proof.
  intros Htl Hsin (Hlv1 & _ & Hil1) (_ & _ & Hil2) (Hz1 & Hr1) (Hz2 & Hr2).
  assert (∀ (n : nat) (L : Z), 0 <= L → treelevels d1 - L = Z.of_nat n →
            aget (inodesin d1) L = aget (inodesin d2) L) as Hall.
  { induction n as [|n IH]; intros L HL Hn.
    - assert (L = treelevels d1) as -> by lia. rewrite Hz1. by rewrite Htl, Hz2.
    - destruct (Hr1 L) as (a1 & s1 & Ha1 & Hs1 & ->); [lia|].
      destruct (Hr2 L) as (a2 & s2 & Ha2 & Hs2 & ->); [lia|].
      rewrite IH, Ha2 in Ha1 by lia. rewrite Hsin, Hs2 in Hs1. congruence. }
  apply list_eq. intros k.
  destruct (decide (Z.of_nat k <= treelevels d1)) as [Hk|Hk].
  - specialize (Hall (Z.to_nat (treelevels d1 - Z.of_nat k)) (Z.of_nat k)).
    unfold aget in Hall. rewrite !decide_True, Nat2Z.id in Hall by lia.
    apply Hall; lia.
  - rewrite !lookup_ge_None_2; [done|lia|lia].
Qed.

(** Appending to an input that goes beyond its symbol table leaves the
    parsed tables as they are and appends to the bitstream. *)
Lemma parse_header_app (input extra : list byte) (d : unpack_descriptor) :
  unpack_parse_header input = Some d → fpIn d ≠ [] →
  unpack_parse_header (input ++ extra) = Some (set_fpIn (fpIn d ++ extra) d).
Proof.
  intros (hdr & s & ino & -> & Hhdr & -> & Hok)%parse_header_inv_ok Hne.
  cbn [app]. destruct (parse_header_spec hdr (s ++ extra) Hhdr) as (ino' & -> & Hl' & Hinv').
  destruct (parse_header_spec hdr s Hhdr) as (ino2 & Hp2 & Hl & _).
  set (n := Z.to_nat (byte_val hdr)) in *.
  assert (drop n s ≠ []) as Hdn.
  { intros Hnil. apply Hne. unfold parsed. cbn [fpIn]. fold n. by rewrite Hnil, drop_nil. }
  assert (n < length s)%nat as Hn.
  { destruct (decide (n < length s)%nat); [done|].
    destruct Hdn. apply drop_ge. lia. }
  assert (header_counts hdr (s ++ extra) = header_counts hdr s) as Hcounts.
  { unfold header_counts. fold n. rewrite !fgetc_n_take, take_app_le, length_app by lia.
    by replace (n - (length s + length extra))%nat with (n - length s)%nat by lia. }
  assert (table_bytes hdr (s ++ extra) = table_bytes hdr s) as Htb
    by (unfold table_bytes; by rewrite Hcounts).
  set (t := table_bytes hdr s) in *.
  assert (t < length (drop n s))%nat as Ht.
  { destruct (decide (t < length (drop n s))%nat); [done|].
    destruct Hne. unfold parsed. cbn [fpIn]. apply drop_ge. fold n t. lia. }
  assert (drop n (s ++ extra) = drop n s ++ extra) as Hdrop
    by (rewrite drop_app_le by lia; done).
  assert (ino' = ino) as ->.
  { apply (inodes_from_unique (parsed hdr (s ++ extra) ino') (parsed hdr s ino)).
    - done.
    - unfold parsed. cbn [symbolsin]. by rewrite Hcounts.
    - by apply parsed_desc_ok.
    - apply Hok.
    - done.
    - apply Hok. }
  f_equal. unfold parsed, header_diag, set_fpIn.
  cbn [symbol_size treelevels symbolsin inodesin symbol symbol_eob tree
       uncompressed_size fpIn fpOut diag].
  fold n. rewrite Hcounts, Htb. fold t. rewrite Hdrop.
  rewrite !eof_msgs_replicate, !fgetc_n_take, !length_app.
  rewrite take_app_le, drop_app_le by lia.
  replace (n - (length s + length extra))%nat with (n - length s)%nat by lia.
  replace (t - (length (drop n s) + length extra))%nat
    with (t - length (drop n s))%nat by lia.
  done.
Qed.

(** X9. When a run stops at the EOB leaf, whatever follows in the input is
    never read: the run on the longer input returns the same count, writes
    the same bytes and reaches the same hooks. *)
Theorem X9_trailing_input_ignored (input extra : list byte)
    (d : unpack_descriptor) (res : bit_result) :
  unpack_parse_header input = Some d →
  decode_loop (fpIn d) decode_state0 d = Some res →
  is_finished res = true →
  unpack (input ++ extra) = unpack input.
Proof.
  intros Hp Hloop Hfin. destruct res as [st' d'|st' d']; [done|].
  assert (fpIn d ≠ []) as Hne by (intros Hnil; by rewrite Hnil in Hloop).
  unfold unpack, unpack_decode.
  rewrite (parse_header_app input extra d Hp Hne), Hp. cbn [mbind option_bind].
  cbn [fpIn set_fpIn]. rewrite decode_loop_fpIn.
  rewrite (decode_loop_app_finished extra _ _ _ _ _ Hloop), Hloop.
  cbn [mbind option_bind result_state result_desc].
  unfold decode_finished, unpack_descriptor_fini. rewrite !maybe_errx_if. done.
Qed.

(** X9 at the two-level container followed by two more bytes. *)
Lemma X9_trailing_input_ignored_witness :
  unpack (two_level_container ++ [Byte.xff; Byte.x00]) = unpack two_level_container.
Proof.
  eapply (X9_trailing_input_ignored two_level_container [Byte.xff; Byte.x00]).
  - vm_compute. reflexivity.
  - vm_compute. reflexivity.
  - reflexivity.
Defined.


(** ** Canonical codes *)

Lemma land1_bit (v : Z) : v = 0 ∨ v = 1 → Z.land (Z.shiftr v 0) 1 = v.
Proof. by intros [-> | ->]. Qed.

Lemma decode_bit_of_bit (thisbyte i : Z) (st : decode_state) (d : unpack_descriptor) :
  decode_bit thisbyte i st d =
  decode_bit (Z.land (Z.shiftr thisbyte i) 1) 0 st d.
Proof.
  unfold decode_bit. by rewrite (land1_bit _ (bit_cases thisbyte i)).
Qed.

Lemma decode_bits_stream (b : byte) (pos : list Z) :
  ∀ st d,
    decode_bits (byte_val b) pos st d =
    decode_stream ((λ i, Z.land (Z.shiftr (byte_val b) i) 1) <$> pos) st d.
Proof.
  induction pos as [|i pos IH]; intros st d; [done|].
  cbn [decode_bits decode_stream fmap list_fmap].
  rewrite <- decode_bit_of_bit.
  destruct (decode_bit (byte_val b) i st d) as [[st1 d1|st1 d1]|]; [|done|done].
  cbn [mbind option_bind]. apply IH.
Qed.

Lemma decode_stream_app (l1 l2 : list Z) :
  ∀ st d,
    decode_stream (l1 ++ l2) st d =
    r ← decode_stream l1 st d;
    match r with
    | Next st' d' => decode_stream l2 st' d'
    | Finished st' d' => Some (Finished st' d')
    end.
Proof.
  induction l1 as [|v l1 IH]; intros st d; [done|].
  cbn [app decode_stream].
  destruct (decode_bit v 0 st d) as [[st1 d1|st1 d1]|]; [|done|done].
  cbn [mbind option_bind]. apply IH.
Qed.

Lemma decode_stream_fpIn (x : list byte) (bits : list Z) :
  ∀ st d, decode_stream bits st (set_fpIn x d) =
          with_fpIn x <$> decode_stream bits st d.
Proof.
  induction bits as [|v bits IH]; intros st d; cbn [decode_stream]; [done|].
  rewrite decode_bit_fpIn.
  destruct (decode_bit v 0 st d) as [[st1 d1|st1 d1]|]; [|done|done].
  cbn [fmap option_fmap option_map mbind option_bind with_fpIn]. apply IH.
Qed.

(** The decode loop is the bit loop run on the bits of the input, up to
    what is left in the input stream. *)
Lemma decode_loop_stream (x : list byte) (input : list byte) :
  ∀ st d,
    with_fpIn x <$> decode_loop input st d =
    with_fpIn x <$> decode_stream (bits_of input) st d.
Proof.
  induction input as [|b rest IH]; intros st d; [done|].
  cbn [decode_loop]. unfold bits_of. cbn [fmap list_fmap concat].
  fold (bits_of rest). rewrite decode_stream_app, decode_bits_fpIn.
  unfold byte_bits. rewrite decode_bits_stream.
  destruct (decode_stream _ st d) as [[st1 d1|st1 d1]|]; [|done|done].
  cbn [fmap option_fmap option_map mbind option_bind with_fpIn].
  rewrite decode_loop_fpIn. apply IH.
Qed.

(** *** Shifts *)

Lemma shiftr_step (c m : Z) :
  0 <= m → Z.shiftr c m = 2 * Z.shiftr c (m + 1) + Z.land (Z.shiftr c m) 1.
Proof.
  intros Hm. rewrite <- (Z.shiftr_shiftr c m 1) by lia.
  set (x := Z.shiftr c m).
  assert (Z.land x 1 = x mod 2) as -> by (apply (Z.land_ones x 1); lia).
  rewrite (Z.shiftr_div_pow2 x 1) by lia. change (2 ^ 1) with 2.
  apply Z.div_mod. lia.
Qed.

Lemma shiftr_half (c m y : Z) :
  0 <= m → Z.shiftr c m < 2 * y → Z.shiftr c (m + 1) < y.
Proof.
  intros Hm Hlt. pose proof (shiftr_step c m Hm) as Hs.
  destruct (bit_cases c m) as [Hb|Hb]; rewrite Hb in Hs; lia.
Qed.

Lemma shiftr_nonneg (c m : Z) : 0 <= c → 0 <= Z.shiftr c m.
Proof. intros Hc. by apply Z.shiftr_nonneg. Qed.


(** *** Walking down to a leaf *)

Section CanonicalCodes.

(** A descriptor as header parsing leaves it, for a full tree. *)
Variable d : unpack_descriptor.
Hypothesis Hd : desc_ok d.
Hypothesis Hfull : complete_tree d.

Lemma ino_at_Some (L : Z) :
  0 <= L <= treelevels d → aget (inodesin d) L = Some (ino_at d L) ∧ 0 <= ino_at d L.
Proof.
  intros HL. unfold ino_at.
  destruct (inodes_values d Hd (Z.to_nat (treelevels d - L)) L)
    as (i & _ & -> & _ & Hi & _); [lia|lia|]. done.
Qed.

Lemma sin_at_Some (L : Z) :
  0 <= L <= treelevels d → aget (symbolsin d) L = Some (sin_at d L) ∧ 0 <= sin_at d L.
Proof.
  intros HL. unfold sin_at.
  destruct (inodes_values d Hd (Z.to_nat (treelevels d - L)) L)
    as (_ & s & _ & -> & _ & Hs & _); [lia|lia|]. done.
Qed.

Lemma base_at_Some (L : Z) :
  0 <= L <= treelevels d →
  aget (tree d) L = Some (base_at d L) ∧
  base_at d L = zsum (take (Z.to_nat L) (symbolsin d)).
Proof.
  intros HL. destruct Hd as ((_ & Hsl & _) & _ & _ & _ & Htree & _).
  unfold base_at, aget. rewrite decide_True by lia.
  rewrite Htree, level_offsets_lookup by lia. done.
Qed.

Lemma zsum_take_mono (cs : list Z) (a b : nat) :
  Forall (λ c, 0 <= c) cs → (a <= b)%nat → zsum (take a cs) <= zsum (take b cs).
Proof.
  intros Hnn Hab. replace (take a cs) with (take a (take b cs))
    by (rewrite take_take; f_equal; lia).
  apply zsum_take_le. by apply Forall_take.
Qed.

(** The last leaf of the deepest level, and no other, lies at [symbol_eob];
    all the others lie inside the symbol table. *)
Lemma leaf_offset (L k : Z) :
  0 <= L <= treelevels d → 0 <= k < sin_at d L →
  0 <= base_at d L + k <= symbol_eob d ∧
  (base_at d L + k = symbol_eob d ↔ (L, k) = eob_leaf d).
Proof.
  intros HL Hk. pose proof Hd as ((_ & Hsl & _) & _ & Hnn & (cs & c & Hcs & Hc) & _ & _ & Heob).
  destruct (base_at_Some L HL) as [_ Hb]. destruct (sin_at_Some L HL) as [Hs _].
  pose proof Hs as [_ Hl]%aget_Some.
  pose proof (zsum_take_S _ _ _ Hl) as HS.
  destruct (base_at_Some (treelevels d)) as [_ Hbl]; [lia|].
  destruct (sin_at_Some (treelevels d)) as [Hsl' _]; [lia|].
  pose proof Hsl' as [_ Hll]%aget_Some.
  pose proof (zsum_take_S _ _ _ Hll) as HSl.
  assert (take (S (Z.to_nat (treelevels d))) (symbolsin d) = symbolsin d) as Hall
    by (apply take_ge; lia).
  rewrite Hall in HSl.
  assert (2 <= sin_at d (treelevels d)) as Hlast.
  { rewrite Hcs in Hll, Hsl. rewrite length_app in Hsl. simpl in Hsl.
    rewrite lookup_app_r in Hll by lia.
    replace (Z.to_nat (treelevels d) - length cs)%nat with 0%nat in Hll by lia.
    simpl in Hll. injection Hll as <-. done. }
  assert (0 <= base_at d L).
  { rewrite Hb. apply zsum_nonneg. by apply Forall_take. }
  unfold eob_leaf. destruct (decide (L = treelevels d)) as [->|Hne].
  - split; [lia|]. split; [intros ?; f_equal; lia|].
    intros Heq. injection Heq as ->. lia.
  - pose proof (zsum_take_mono (symbolsin d) (S (Z.to_nat L))
                  (Z.to_nat (treelevels d)) Hnn ltac:(lia)).
    split; [lia|]. split; [lia|]. intros Heq. injection Heq as ->. done.
Qed.

(** The code of a leaf, cut after any number of bits, is below the node
    count of the level it has reached. *)
Lemma prefix_below (L c : Z) (t : nat) :
  0 <= L <= treelevels d → 0 <= c < ino_at d L + sin_at d L →
  Z.of_nat t <= L →
  Z.shiftr c (Z.of_nat t) <
    ino_at d (L - Z.of_nat t) + sin_at d (L - Z.of_nat t) ∧
  (1 <= Z.of_nat t → Z.shiftr c (Z.of_nat t) < ino_at d (L - Z.of_nat t)).
Proof.
  intros HL Hc. induction t as [|t IH]; intros Ht.
  - rewrite Z.shiftr_0_r, Z.sub_0_r. split; [lia|lia].
  - destruct IH as [IH _]; [lia|].
    destruct Hfull as [_ Hstep].
    specialize (Hstep (L - Z.of_nat (S t)) ltac:(lia)).
    replace (L - Z.of_nat (S t) + 1) with (L - Z.of_nat t) in Hstep by lia.
    rewrite Hstep in IH.
    apply shiftr_half in IH; [|lia].
    replace (Z.of_nat t + 1) with (Z.of_nat (S t)) in IH by lia.
    destruct (sin_at_Some (L - Z.of_nat (S t))) as [_ Hs]; [lia|].
    split; [lia|done].
Qed.

Lemma code_fits (L c : Z) :
  0 <= L <= treelevels d → 0 <= c < ino_at d L + sin_at d L →
  Z.shiftr c (L + 1) = 0.
Proof.
  intros HL Hc.
  destruct (prefix_below L c (Z.to_nat L) HL Hc) as [Hlt _]; [lia|].
  rewrite Z2Nat.id, Z.sub_diag in Hlt by lia.
  destruct Hfull as [Hroot _]. rewrite Hroot in Hlt.
  assert (Z.shiftr c (L + 1) < 1) by (apply shiftr_half; lia).
  pose proof (shiftr_nonneg c (L + 1)). lia.
Qed.

(** Descending: all the bits of a code but the last. *)
Lemma walk_down (L c n : Z) (m : nat) :
  0 <= L <= treelevels d → 0 <= c < ino_at d L + sin_at d L →
  Z.of_nat m <= L →
  decode_stream (code_bits (S m) c)
    (mk_dstate (L - Z.of_nat m) (Z.shiftr c (Z.of_nat m + 1)) n) d =
  decode_stream (code_bits 1 c) (mk_dstate L (Z.shiftr c 1) n) d.
Proof.
  intros HL Hc. induction m as [|m IH]; intros Hm.
  - by rewrite Z.sub_0_r.
  - change (code_bits (S (S m)) c)
      with (Z.land (Z.shiftr c (Z.of_nat (S m))) 1 :: code_bits (S m) c).
    cbn [decode_stream].
    destruct (prefix_below L c (S m) HL Hc Hm) as [_ Hlt]. specialize (Hlt ltac:(lia)).
    destruct (ino_at_Some (L - Z.of_nat (S m))) as [Hino _]; [lia|].
    pose proof (shiftr_step c (Z.of_nat (S m)) ltac:(lia)) as Hstep.
    rewrite (decode_bit_descend _ 0 _ d (ino_at d (L - Z.of_nat (S m)))).
    + cbn [thislevel thiscode bytes_out].
      rewrite decide_False by lia. rewrite set_diag_nil_r.
      cbn [mbind option_bind].
      rewrite (land1_bit _ (bit_cases c (Z.of_nat (S m)))).
      rewrite code_val
        by (first [apply shiftr_nonneg; lia | apply bit_cases]).
      rewrite <- Hstep.
      replace (L - Z.of_nat (S m) + 1) with (L - Z.of_nat m) by lia.
      replace (Z.of_nat (S m)) with (Z.of_nat m + 1) by lia.
      apply IH. lia.
    + done.
    + cbn [thislevel thiscode]. rewrite (land1_bit _ (bit_cases c (Z.of_nat (S m)))).
      rewrite code_val by (first [apply shiftr_nonneg; lia | apply bit_cases]).
      rewrite <- Hstep. done.
Qed.

(** The whole code of a leaf, from the start of a symbol. *)
Lemma decode_leaf_code (L k n : Z) :
  0 <= L <= treelevels d → 0 <= k < sin_at d L →
  decode_stream (leaf_code d (L, k)) (mk_dstate 0 0 n) d =
    if decide ((L, k) = eob_leaf d)
    then Some (Finished (mk_dstate L (ino_at d L + k) n) d)
    else Some (Next (mk_dstate 0 0 (n + 1))
                 (set_fpOut (fpOut d ++ [leaf_byte d (L, k)]) d)).
Proof.
  intros HL Hk. unfold leaf_code, leaf_byte. cbn [fst snd].
  destruct (ino_at_Some L HL) as [Hino Hinn].
  destruct (sin_at_Some L HL) as [Hsin _].
  destruct (base_at_Some L HL) as [Hbase _].
  set (c := ino_at d L + k).
  assert (0 <= c < ino_at d L + sin_at d L) as Hc by (unfold c; lia).
  pose proof (walk_down L c n (Z.to_nat L) HL Hc ltac:(lia)) as Hwalk.
  rewrite Z2Nat.id, Z.sub_diag, (code_fits L c HL Hc) in Hwalk by lia.
  rewrite Hwalk. cbn [code_bits decode_stream].
  pose proof (shiftr_step c 0 ltac:(lia)) as Hstep.
  rewrite Z.shiftr_0_r in Hstep at 1. change (0 + 1) with 1 in Hstep.
  change (Z.of_nat 0) with 0.
  rewrite (decode_bit_leaf _ 0 _ d (ino_at d L) (sin_at d L) (base_at d L));
    cbn [thislevel thiscode bytes_out]; try done.
  - rewrite (land1_bit _ (bit_cases c 0)).
    rewrite code_val by (first [apply shiftr_nonneg; lia | apply bit_cases]).
    rewrite <- Hstep.
    replace (c - ino_at d L) with k by (unfold c; lia).
    rewrite (decide_False (P := k > sin_at d L)) by lia. rewrite set_diag_nil_r.
    destruct (leaf_offset L k HL Hk) as [Hrange Heob].
    destruct (decide (base_at d L + k = symbol_eob d)) as [He|He].
    + rewrite decide_True by by apply Heob. done.
    + rewrite decide_False by (by rewrite <- Heob).
      destruct Hd as (_ & _ & _ & _ & _ & Hlen & _).
      destruct (aget_is_Some (symbol d) (base_at d L + k)) as [b Hb]; [lia|].
      rewrite Hb. done.
  - rewrite (land1_bit _ (bit_cases c 0)).
    rewrite code_val by (first [apply shiftr_nonneg; lia | apply bit_cases]).
    rewrite <- Hstep. unfold c. lia.
Qed.

End CanonicalCodes.


Lemma desc_ok_fpOut (out : list byte) (d : unpack_descriptor) :
  desc_ok d → desc_ok (set_fpOut out d).
Proof. by apply desc_ok_tables. Qed.

Lemma eob_leaf_range (d : unpack_descriptor) :
  desc_ok d → 0 <= (eob_leaf d).2 < sin_at d (treelevels d).
Proof.
  intros Hd. pose proof Hd as ((Hlv & Hsl & _) & _ & _ & (cs & c & Hcs & Hc) & _).
  destruct (sin_at_Some d Hd (treelevels d)) as [[_ Hl]%aget_Some _]; [lia|].
  rewrite Hcs in Hl, Hsl. rewrite length_app in Hsl. simpl in Hsl.
  rewrite lookup_app_r in Hl by lia.
  replace (Z.to_nat (treelevels d) - length cs)%nat with 0%nat in Hl by lia.
  simpl in Hl. injection Hl as Hl. unfold eob_leaf. cbn [snd]. lia.
Qed.

(** The codes of a sequence of leaves, then the code of EOB, then anything:
    the bit loop writes the bytes of the leaves and stops. *)
Lemma decode_message (d : unpack_descriptor) (msg : list (Z * Z)) :
  desc_ok d → complete_tree d → Forall (symbol_leaf d) msg →
  ∀ (out : list byte) (n : Z) (tail : list Z),
    ∃ st,
      decode_stream
        (concat (leaf_code d <$> msg) ++ leaf_code d (eob_leaf d) ++ tail)
        (mk_dstate 0 0 n) (set_fpOut out d) =
      Some (Finished st (set_fpOut (out ++ (leaf_byte d <$> msg)) d)) ∧
      bytes_out st = n + Z.of_nat (length msg).
Proof.
  intros Hd Hfull. induction 1 as [|[L k] msg (HL & Hk & Hne) _ IH]; intros out n tail.
  - cbn [fmap list_fmap concat app]. rewrite decode_stream_app.
    pose proof (eob_leaf_range d Hd) as Hr.
    assert (0 <= treelevels d <= treelevels (set_fpOut out d)) as Hlv
      by (destruct Hd as ((? & _) & _); cbn [treelevels set_fpOut]; lia).
    pose proof (decode_leaf_code (set_fpOut out d) (desc_ok_fpOut out d Hd) Hfull
                  (treelevels d) (eob_leaf d).2 n Hlv Hr) as Hcode.
    change (treelevels d, (eob_leaf d).2) with (eob_leaf d) in Hcode.
    change (eob_leaf (set_fpOut out d)) with (eob_leaf d) in Hcode.
    change (leaf_code (set_fpOut out d)) with (leaf_code d) in Hcode.
    rewrite decide_True in Hcode by done. rewrite Hcode. cbn [mbind option_bind].
    rewrite app_nil_r. eexists. split; [done|]. simpl. lia.
  - change (concat (leaf_code d <$> (L, k) :: msg))
      with (leaf_code d (L, k) ++ concat (leaf_code d <$> msg)).
    rewrite <- app_assoc, decode_stream_app.
    cbn [fst snd] in HL, Hk.
    pose proof (decode_leaf_code (set_fpOut out d) (desc_ok_fpOut out d Hd) Hfull
                  L k n HL Hk) as Hcode.
    change (eob_leaf (set_fpOut out d)) with (eob_leaf d) in Hcode.
    change (leaf_code (set_fpOut out d)) with (leaf_code d) in Hcode.
    change (leaf_byte (set_fpOut out d)) with (leaf_byte d) in Hcode.
    rewrite decide_False in Hcode by done. rewrite Hcode. cbn [mbind option_bind].
    change (set_fpOut (fpOut (set_fpOut out d) ++ [leaf_byte d (L, k)]) (set_fpOut out d))
      with (set_fpOut (out ++ [leaf_byte d (L, k)]) d).
    destruct (IH (out ++ [leaf_byte d (L, k)]) (n + 1) tail) as (st & -> & Hst).
    exists st. rewrite <- app_assoc. split; [done|].
    rewrite Hst. cbn [length]. lia.
Qed.

Lemma with_fpIn_finished (x : list byte) (r : bit_result)
    (st : decode_state) (d : unpack_descriptor) :
  with_fpIn x r = Finished st d →
  is_finished r = true ∧ result_state r = st ∧
  fpOut (result_desc r) = fpOut d ∧ diag (result_desc r) = diag d ∧
  uncompressed_size (result_desc r) = uncompressed_size d.
Proof.
  destruct r as [st1 d1|st1 d1]; [done|]. cbn [with_fpIn].
  intros H. injection H as <- <-. done.
Qed.

(** X10. Decoding inverts the canonical code.  For a full tree, if the
    bitstream, read most significant bit first, begins with the codes of a
    sequence of leaves other than EOB followed by the code of EOB, the run
    writes the bytes of these leaves, in order, returns their number, and
    reaches no corruption hook, whatever follows the code of EOB.  The code
    of the leaf of index k at level L is the number
    [inodesin[L] + k] written on L + 1 bits. *)
Theorem X10_decodes_canonical_codes (input : list byte) (d : unpack_descriptor)
    (msg : list (Z * Z)) (tail : list Z) :
  unpack_parse_header input = Some d →
  complete_tree d →
  Forall (symbol_leaf d) msg →
  bits_of (fpIn d) =
    concat (leaf_code d <$> msg) ++ leaf_code d (eob_leaf d) ++ tail →
  unpack input =
    Some (mk_run (Z.of_nat (length msg)) (leaf_byte d <$> msg)
            (diag d ++ if decide (Z.of_nat (length msg) ≠ 0)
                       then [msg_premature_eof] else [])).
Proof.
  intros Hp Hfull Hmsg Hbits.
  pose proof Hp as (hdr & s & ino & -> & Hhdr & Hd & Hok)%parse_header_inv_ok.
  destruct (decode_message d msg Hok Hfull Hmsg [] 0 tail) as (st & Hrun & Hst).
  rewrite <- Hbits in Hrun.
  assert (set_fpOut [] d = d) as Hout by (by rewrite Hd).
  rewrite Hout in Hrun.
  pose proof (decode_loop_stream [] (fpIn d) decode_state0 d) as Hloop.
  unfold decode_state0 in Hloop. rewrite Hrun in Hloop.
  unfold unpack, unpack_decode. rewrite Hp. cbn [mbind option_bind].
  unfold decode_state0.
  destruct (decode_loop (fpIn d) (mk_dstate 0 0 0) d) as [r|]; [|done].
  cbn [fmap option_fmap option_map with_fpIn] in Hloop. injection Hloop as Hloop.
  apply with_fpIn_finished in Hloop as (_ & Hrs & Hro & Hrd & Hru).
  cbn [mbind option_bind]. unfold decode_finished, unpack_descriptor_fini.
  rewrite maybe_errx_if. cbn [uncompressed_size set_uncompressed_size set_diag fpOut diag].
  rewrite Hrs, Hro, Hrd, Hru, Hst.
  cbn [uncompressed_size set_fpIn set_fpOut fpOut diag]. rewrite Z.add_0_l.
  by rewrite Hd.
Qed.

(** X10 at the two-level container: 'A' is the leaf 0 of level 0, 'B' the
    leaf 0 of level 1, and three bits follow the code of EOB. *)
Lemma X10_decodes_canonical_codes_witness :
  ∃ d, unpack_parse_header two_level_container = Some d ∧
       unpack two_level_container =
         Some (mk_run (Z.of_nat (length [(0, 0); (1, 0)]))
                 (leaf_byte d <$> [(0, 0); (1, 0)])
                 (diag d ++ if decide (Z.of_nat (length [(0, 0); (1, 0)]) ≠ 0)
                            then [msg_premature_eof] else [])).
Proof.
  eexists. split; [vm_compute; reflexivity|].
  apply (X10_decodes_canonical_codes two_level_container _ [(0, 0); (1, 0)] [0; 0; 0]).
  - vm_compute. reflexivity.
  - split; [vm_compute; reflexivity|].
    intros L HL. assert (L = 0) as -> by (cbn [treelevels] in HL; lia).
    vm_compute. reflexivity.
  - repeat constructor; vm_compute; congruence.
  - vm_compute. reflexivity.
Defined.


(** ** The width of the running code *)

Lemma decode_stream_state (bits : list Z) :
  ∀ st d r,
    desc_ok d → state_ok d st → decode_stream bits st d = Some r →
    tables (result_desc r) = tables d ∧
    (is_finished r = false → state_ok d (result_state r)).
Proof.
  induction bits as [|v bits IH]; intros st d r Hd Hst Hr; cbn [decode_stream] in Hr.
  - injection Hr as <-. done.
  - destruct (decode_bit_defined d Hd v 0 st Hst) as (r1 & Hr1 & Ht1 & Hst1).
    rewrite Hr1 in Hr. cbn [mbind option_bind] in Hr.
    destruct r1 as [st1 d1|st1 d1]; simpl in *; [|by injection Hr as <-].
    destruct (IH st1 d1 r) as [Ht Hok]; [by eapply desc_ok_tables| |done|].
    + eapply state_ok_tables; [done|]. by apply Hst1.
    + split; [congruence|]. intros Hf.
      eapply state_ok_tables; [symmetry; exact Ht1|]. by apply Hok.
Qed.

(** X11. Whatever bits the bit loop is fed after a header, between two
    turns the level is at most [treelevels] and the running code is below
    the total of the leaf counts, which is at most 255 * 255 + 2: the code
    of the next turn is below 2^18 at any depth, 255 levels included, and
    fits an [int]. *)
Theorem X11_code_width (input : list byte) (d d' : unpack_descriptor)
    (bits : list Z) (st : decode_state) :
  unpack_parse_header input = Some d →
  decode_stream bits decode_state0 d = Some (Next st d') →
  0 <= thislevel st <= treelevels d ∧
  0 <= thiscode st < zsum (symbolsin d) ∧
  zsum (symbolsin d) <= 255 * 255 + 2 ∧
  ∀ v, v = 0 ∨ v = 1 →
    0 <= Z.lor (Z.shiftl (thiscode st) 1) v < 2 ^ 18.
Proof.
  intros (hdr & s & ino & -> & Hhdr & -> & Hok)%parse_header_inv_ok Hrun.
  assert (state_ok (parsed hdr s ino) decode_state0) as Hst0 by by left.
  destruct (decode_stream_state bits _ _ _ Hok Hst0 Hrun) as [_ Hst].
  specialize (Hst eq_refl). cbn [result_state] in Hst.
  pose proof (thiscode_bound _ Hok st Hst) as Hcode.
  pose proof (parsed_sum_bound hdr s ino Hhdr) as Hsum.
  split; [|split; [done|split; [done|]]].
  - destruct Hst as [[-> _]|[? _]]; [|lia]. destruct Hok as ((? & _) & _). lia.
  - intros v Hv. rewrite code_val by (done || lia).
    change (2 ^ 18) with 262144. destruct Hv as [-> | ->]; lia.
Qed.

(** X11 at the two-level container, after the bit 0 that leads to level 1. *)
Lemma X11_code_width_witness :
  ∃ d, unpack_parse_header two_level_container = Some d ∧
       0 <= thislevel (mk_dstate 1 0 0) <= treelevels d ∧
       0 <= thiscode (mk_dstate 1 0 0) < zsum (symbolsin d) ∧
       zsum (symbolsin d) <= 255 * 255 + 2 ∧
       ∀ v, v = 0 ∨ v = 1 →
         0 <= Z.lor (Z.shiftl (thiscode (mk_dstate 1 0 0)) 1) v < 2 ^ 18.
Proof.
  eexists. split; [vm_compute; reflexivity|].
  eapply (X11_code_width two_level_container _ _ [0]).
  - vm_compute. reflexivity.
  - vm_compute. reflexivity.
Defined.


(** ** The counter of accepted bytes *)





Lemma parse_header_in_zero (b : option Z) (hdr : byte) (s : list byte) :
  byte_val hdr < 1 → unpack_parse_header_in b (hdr :: s) = None.
Proof.
  intros Hhdr. pose proof (byte_val_range hdr) as Hr.
  assert (byte_val hdr = 0) as Hz by lia.
  unfold unpack_parse_header_in. rewrite !maybe_errx_if. unpackd_norm.
  rewrite Hz. change (seqZ 0 (0 - 1 + 1)) with (@nil Z). cbn [for_each].
  unpackd_norm. rewrite maybe_errx_if. unpackd_norm. done.
Qed.




